(** * pLEXtrum: a shallow embedding of [plextrum.h] and its properties

    The engine of [plextrum.h] is embedded function by function.  A
    [lexer_t *] argument is an [option lexer_t] ([None] is the null
    pointer); the functions that mutate the engine return its new state.
    Matchers and actions are C function pointers: the rule table stores
    their addresses and a code environment gives each address its
    meaning as a state transformer on the engine and the working
    token. *)

From Stdlib Require Import ZArith List String Ascii Bool Lia.
Import ListNotations.
Local Open Scope Z_scope.

(** ** Machine integers *)

(** [size_t] is an unsigned integer of [SIZE_BITS] bits; its arithmetic
    wraps around. *)
Definition SIZE_BITS : Z := 64.
Definition size_modulus : Z := 2 ^ SIZE_BITS.
Definition wrap_size (z : Z) : Z := z mod size_modulus.
Definition is_size (z : Z) : Prop := 0 <= z < size_modulus.

(** ** Characters and pointers *)

(** A [const char *] designates a character array.  Arrays are never
    written by the engine, so a pointer carries the array it points into
    and an offset.  A string literal of the library and a buffer handed
    in by the caller are different objects even with equal contents.
    The characters of an array are followed by a terminating zero; a read
    further out is undefined in C and yields zero here. *)
Inductive cobject : Type :=
| StringLiteral (chars : string)
| CallerBuffer (id : N) (chars : string).

Inductive cptr : Type :=
| NULL
| Ptr (obj : cobject) (off : Z).

Definition object_chars (o : cobject) : string :=
  match o with
  | StringLiteral s => s
  | CallerBuffer _ s => s
  end.

Definition NUL : ascii := Ascii.zero.

(** [p + n] *)
Definition ptr_add (p : cptr) (n : Z) : cptr :=
  match p with
  | NULL => NULL
  | Ptr o off => Ptr o (off + n)
  end.

(** [p[i]] *)
Definition load (p : cptr) (i : Z) : ascii :=
  match p with
  | NULL => NUL
  | Ptr o off =>
      if off + i <? 0 then NUL
      else match String.get (Z.to_nat (off + i)) (object_chars o) with
           | Some c => c
           | None => NUL
           end
  end.

Fixpoint skip_chars (n : nat) (s : string) : string :=
  match n, s with
  | O, _ => s
  | S n', String _ r => skip_chars n' r
  | S _, EmptyString => EmptyString
  end.

Fixpoint strlen_chars (s : string) : Z :=
  match s with
  | EmptyString => 0
  | String c r => if Ascii.eqb c NUL then 0 else 1 + strlen_chars r
  end.

Definition strlen (p : cptr) : Z :=
  match p with
  | NULL => 0
  | Ptr o off => strlen_chars (skip_chars (Z.to_nat off) (object_chars o))
  end.

(** A function pointer is an address; address 0 is the null pointer. *)
Definition fnptr : Type := N.
Definition fn_is_null (f : fnptr) : bool := N.eqb f 0%N.

(** ** Core types *)

Definition TOKEN_FLAG_NONE : Z := 0.
Definition TOKEN_FLAG_IGNORE : Z := Z.shiftl 1 0.

Definition LEXER_FLAG_NONE : Z := 0.
Definition LEXER_FLAG_KEEP_IGNORABLE : Z := Z.shiftl 1 0.

Definition INTERNAL_TOKEN_EOF : Z := 0.
Definition INTERNAL_TOKEN_ERROR : Z := 1.

Record token_t : Type := mk_token {
  token_kind : Z;
  token_lexeme : cptr;
  token_length : Z;
  token_filename : cptr;
  token_line : Z;
  token_column : Z;
  token_flags : Z
}.

Record lexer_rule_t : Type := mk_rule {
  matcher : fnptr;
  action : fnptr
}.

(** [lexer_rules_t] is a growable array; only its items, in order, are
    kept ([count] is the length of the list, [capacity] is storage). *)
Definition lexer_rules_t : Type := list lexer_rule_t.

Section Engine.

(** The data behind the [void *context] of the engine: owned by the
    caller, never inspected by the engine, readable and writable by
    matchers and actions. *)
Context {Ctx : Type}.

Record lexer_t : Type := mk_lexer {
  lexer_source : cptr;
  lexer_source_length : Z;
  lexer_position : Z;
  lexer_line : Z;
  lexer_column : Z;
  lexer_filename : cptr;
  lexer_rules : lexer_rules_t;
  lexer_error_message : cptr;
  lexer_context : option Ctx;
  lexer_flags : Z
}.

(** [lexer->position = p; lexer->line = l; lexer->column = c;] *)
Definition set_location (lx : lexer_t) (p l c : Z) : lexer_t :=
  mk_lexer (lexer_source lx) (lexer_source_length lx) p l c
           (lexer_filename lx) (lexer_rules lx) (lexer_error_message lx)
           (lexer_context lx) (lexer_flags lx).

(** [token.line = l; token.column = c; token.lexeme = p;] *)
Definition set_token_start (t : token_t) (l c : Z) (p : cptr) : token_t :=
  mk_token (token_kind t) p (token_length t) (token_filename t) l c
           (token_flags t).

(** The code behind the function pointers of the rules: what a matcher
    returns and how it leaves the engine and the working token, and how
    an action leaves them. *)
Variable matcher_code : fnptr -> lexer_t -> token_t -> bool * lexer_t * token_t.
Variable action_code : fnptr -> lexer_t -> token_t -> lexer_t * token_t.

(** ** Creation and rule management *)

(** [malloc_ok] tells whether the allocation succeeds; [uninit] is the
    indeterminate content [malloc] leaves in [error_message]. *)
Definition lexer_create (malloc_ok : bool) (uninit : cptr)
    (source : cptr) (length : Z) (filename : cptr) (flags : Z)
  : option lexer_t :=
  match source with
  | NULL => None
  | _ =>
      if negb malloc_ok then None
      else
        let length := if length =? 0 then strlen source else length in
        Some (mk_lexer source length 0 1 1 filename [] uninit None flags)
  end.

Definition da_append (da : lexer_rules_t) (item : lexer_rule_t) : lexer_rules_t :=
  da ++ [item].

Definition lexer_add_rule (lexer : option lexer_t) (m a : fnptr)
  : bool * option lexer_t :=
  match lexer with
  | None => (false, None)
  | Some lx =>
      if fn_is_null m then (false, Some lx)
      else
        let new_rule := mk_rule m a in
        (true,
         Some (mk_lexer (lexer_source lx) (lexer_source_length lx)
                 (lexer_position lx) (lexer_line lx) (lexer_column lx)
                 (lexer_filename lx) (da_append (lexer_rules lx) new_rule)
                 (lexer_error_message lx) (lexer_context lx) (lexer_flags lx)))
  end.

Definition lexer_reset (lexer : option lexer_t) (source : cptr) (length : Z)
    (filename : cptr) : option lexer_t :=
  match lexer, source with
  | None, _ => None
  | Some lx, NULL => Some lx
  | Some lx, _ =>
      let length := if length =? 0 then strlen source else length in
      Some (mk_lexer source length 0 1 1 filename (lexer_rules lx)
              (lexer_error_message lx) (lexer_context lx) (lexer_flags lx))
  end.

(** ** Source inspection *)

Definition lexer_current (lexer : option lexer_t) : ascii :=
  match lexer with
  | None => NUL
  | Some lx =>
      if lexer_source_length lx <=? lexer_position lx then NUL
      else load (lexer_source lx) (lexer_position lx)
  end.

Definition lexer_peek (lexer : option lexer_t) (offset : Z) : ascii :=
  match lexer with
  | None => NUL
  | Some lx =>
      if lexer_source_length lx <=? wrap_size (lexer_position lx + offset)
      then NUL
      else load (lexer_source lx) (wrap_size (lexer_position lx + offset))
  end.

Definition newline : ascii := Ascii.ascii_of_nat 10.

Definition lexer_advance (lexer : option lexer_t) : option lexer_t :=
  match lexer with
  | None => None
  | Some lx =>
      if lexer_source_length lx <=? lexer_position lx then Some lx
      else
        let current := load (lexer_source lx) (lexer_position lx) in
        let position := wrap_size (lexer_position lx + 1) in
        if Ascii.eqb current newline
        then Some (set_location lx position (wrap_size (lexer_line lx + 1)) 1)
        else Some (set_location lx position (lexer_line lx)
                     (wrap_size (lexer_column lx + 1)))
  end.

Definition lexer_is_eof (lexer : option lexer_t) : bool :=
  match lexer with
  | None => true
  | Some lx => lexer_source_length lx <=? lexer_position lx
  end.

Definition lexer_get_context (lexer : option lexer_t) : option Ctx :=
  match lexer with
  | None => None
  | Some lx => lexer_context lx
  end.

Definition create_token (kind : Z) (lexeme : cptr) (length line column : Z)
    (filename : cptr) (flags : Z) : token_t :=
  mk_token kind lexeme length filename line column flags.

Definition lexer_get_position (lexer : option lexer_t) : Z :=
  match lexer with Some lx => lexer_position lx | None => 0 end.

Definition lexer_get_line (lexer : option lexer_t) : Z :=
  match lexer with Some lx => lexer_line lx | None => 0 end.

Definition lexer_get_column (lexer : option lexer_t) : Z :=
  match lexer with Some lx => lexer_column lx | None => 0 end.

Definition lexer_get_lexeme (lexer : option lexer_t) (start length : Z) : cptr :=
  match lexer with
  | None => NULL
  | Some lx =>
      if lexer_source_length lx <=? start then NULL
      else ptr_add (lexer_source lx) start
  end.

(** ** Core lexing operation *)

(** [token_t token = {0};] *)
Definition token_zero : token_t := mk_token 0 NULL 0 NULL 0 0 0.

(** [token.flags & TOKEN_FLAG_IGNORE] as a condition *)
Definition has_ignore (token : token_t) : bool :=
  negb (Z.land (token_flags token) TOKEN_FLAG_IGNORE =? 0).

(** [lexer->flags & LEXER_FLAG_KEEP_IGNORABLE] as a condition *)
Definition keeps_ignorable (lx : lexer_t) : bool :=
  negb (Z.land (lexer_flags lx) LEXER_FLAG_KEEP_IGNORABLE =? 0).

(** [token.flags & TOKEN_FLAG_IGNORE && !(lexer->flags & LEXER_FLAG_KEEP_IGNORABLE)] *)
Definition is_discarded (lx : lexer_t) (token : token_t) : bool :=
  has_ignore token && negb (keeps_ignorable lx).

(** [if (rule.action) rule.action(lexer, &token);] *)
Definition run_action (rule : lexer_rule_t) (lx : lexer_t) (token : token_t)
  : lexer_t * token_t :=
  if fn_is_null (action rule) then (lx, token)
  else action_code (action rule) lx token.

(** How the [for] loop over the rules is left: by the [return] of a
    token, or without one (by [break] or because the index reached the
    rule count), with the value of [reset] at that point. *)
Inductive for_outcome : Type :=
| ForReturn (result : token_t) (lx : lexer_t)
| ForExit (reset : bool) (lx : lexer_t) (token : token_t).

Definition null_rule : lexer_rule_t := mk_rule 0%N 0%N.

(** The [for] loop of [lexer_next_token], entered at index [i] with the
    attempt origin [start_position], [start_line], [start_column].  The
    rule count is read from the engine at every iteration, so the loop
    is bounded by [fuel]: one unit per rule attempt. *)
Fixpoint for_rules (fuel : nat) (reset : bool) (lx : lexer_t) (token : token_t)
    (start_position start_line start_column : Z) (i : nat)
  : option for_outcome :=
  match fuel with
  | O => None
  | S fuel' =>
      if (i <? List.length (lexer_rules lx))%nat then
        let token :=
          set_token_start token start_line start_column
            (ptr_add (lexer_source lx) start_position) in
        let i := if reset then O else i in
        let rule := nth i (lexer_rules lx) null_rule in
        let '(matched, lx, token) := matcher_code (matcher rule) lx token in
        if matched then
          let '(lx, token) := run_action rule lx token in
          if is_discarded lx token then Some (ForExit true lx token)
          else
            Some (ForReturn
                    (create_token (token_kind token) (token_lexeme token)
                       (token_length token) (token_line token)
                       (token_column token) (token_filename token)
                       (token_flags token))
                    lx)
        else
          for_rules fuel' reset
            (set_location lx start_position start_line start_column)
            token start_position start_line start_column (S i)
      else Some (ForExit reset lx token)
  end.

(** How the [while (true)] loop is left. *)
Inductive while_outcome : Type :=
| Returned (result : token_t) (lx : lexer_t)
| NoMatch (lx : lexer_t) (token : token_t).

(** The [while (true)] loop; [reset] is [false] whenever its body is
    entered.  One unit of [fuel] per pass over the rules. *)
Fixpoint while_loop (fuel : nat) (lx : lexer_t) (token : token_t)
  : option while_outcome :=
  match fuel with
  | O => None
  | S fuel' =>
      let start_position := lexer_position lx in
      let start_line := lexer_line lx in
      let start_column := lexer_column lx in
      match for_rules fuel' false lx token
              start_position start_line start_column O with
      | None => None
      | Some (ForReturn result lx') => Some (Returned result lx')
      | Some (ForExit reset lx' token') =>
          if negb reset then Some (NoMatch lx' token')
          else while_loop fuel' lx' token'
      end
  end.

Definition EOF_LITERAL : cptr := Ptr (StringLiteral "EOF") 0.

(** The code after the loops: no rule matched. *)
Definition no_rule_matched (lx : lexer_t) : token_t * option lexer_t :=
  if lexer_is_eof (Some lx) then
    (create_token INTERNAL_TOKEN_EOF EOF_LITERAL 0 (lexer_line lx)
       (lexer_column lx) (lexer_filename lx) 0,
     Some lx)
  else
    let error :=
      create_token INTERNAL_TOKEN_ERROR
        (ptr_add (lexer_source lx) (lexer_position lx)) 1
        (lexer_line lx) (lexer_column lx) (lexer_filename lx) 0 in
    (error, lexer_advance (Some lx)).

Definition conclude (o : option while_outcome) : option (token_t * option lexer_t) :=
  match o with
  | None => None
  | Some (Returned result lx) => Some (result, Some lx)
  | Some (NoMatch lx _) => Some (no_rule_matched lx)
  end.

(** [lexer_next_token]: the token returned and the engine afterwards;
    [None] when [fuel] does not suffice for the loops. *)
Definition lexer_next_token (fuel : nat) (lexer : option lexer_t)
  : option (token_t * option lexer_t) :=
  match lexer with
  | None => Some (create_token INTERNAL_TOKEN_EOF EOF_LITERAL 0 0 0 NULL 0, None)
  | Some lx =>
      if lexer_is_eof (Some lx) then
        Some (create_token INTERNAL_TOKEN_EOF EOF_LITERAL 0 (lexer_line lx)
                (lexer_column lx) (lexer_filename lx) 0,
              Some lx)
      else conclude (while_loop fuel lx token_zero)
  end.

(** ** Character classification *)

Definition char_code (c : ascii) : Z := Z.of_N (N_of_ascii c).

Definition lexer_is_space (c : ascii) : bool :=
  let n := char_code c in
  (n =? 32) || (n =? 10) || (n =? 9) || (n =? 8) || (n =? 13) || (n =? 11).

Definition lexer_is_alpha (c : ascii) : bool :=
  let n := char_code c in
  ((97 <=? n) && (n <=? 122)) || ((65 <=? n) && (n <=? 90)) || (n =? 95).

Definition lexer_is_digit (c : ascii) : bool :=
  let n := char_code c in (48 <=? n) && (n <=? 57).

Definition lexer_is_alnum (c : ascii) : bool :=
  lexer_is_alpha c || lexer_is_digit c.

End Engine.

Arguments lexer_t : clear implicits.
Arguments mk_lexer {Ctx}.

(** ** Sample rules

    Matchers and actions written against the inspection functions, in
    the style of the lexers built on the engine; they serve to run the
    engine on concrete inputs. *)
Module Sample.

Definition lexer : Type := lexer_t unit.

Definition advance (lx : lexer) : lexer :=
  match lexer_advance (Some lx) with
  | Some lx' => lx'
  | None => lx
  end.

(** [while (p(lexer_current(lexer))) lexer_advance(lexer);] with at most
    [n] iterations. *)
Fixpoint advance_while (p : ascii -> bool) (n : nat) (lx : lexer) : lexer :=
  match n with
  | O => lx
  | S n' =>
      if p (lexer_current (Some lx)) then advance_while p n' (advance lx)
      else lx
  end.

Definition remaining (lx : lexer) : nat :=
  Z.to_nat (lexer_source_length lx - lexer_position lx).

Definition set_kind_length (t : token_t) (kind length : Z) : token_t :=
  mk_token kind (token_lexeme t) length (token_filename t)
           (token_line t) (token_column t) (token_flags t).

Definition set_flags (t : token_t) (flags : Z) : token_t :=
  mk_token (token_kind t) (token_lexeme t) (token_length t)
           (token_filename t) (token_line t) (token_column t) flags.

Definition TOKEN_SPACE : Z := 2.
Definition TOKEN_IDENT : Z := 3.
Definition TOKEN_CHAR : Z := 4.
Definition TOKEN_STRING : Z := 5.

(** A run of white space; writes kind and length. *)
Definition match_space (lx : lexer) (t : token_t) : bool * lexer * token_t :=
  let start := lexer_get_position (Some lx) in
  if lexer_is_space (lexer_current (Some lx)) then
    let lx' := advance_while lexer_is_space (remaining lx) lx in
    (true, lx', set_kind_length t TOKEN_SPACE (lexer_position lx' - start))
  else (false, lx, t).

(** A letter followed by letters and digits; writes kind and length and
    leaves the flags as they are. *)
Definition match_ident (lx : lexer) (t : token_t) : bool * lexer * token_t :=
  let start := lexer_get_position (Some lx) in
  if lexer_is_alpha (lexer_current (Some lx)) then
    let lx' := advance_while lexer_is_alnum (remaining lx) lx in
    (true, lx', set_kind_length t TOKEN_IDENT (lexer_position lx' - start))
  else (false, lx, t).

(** Any single character; writes kind, length and flags. *)
Definition match_any (lx : lexer) (t : token_t) : bool * lexer * token_t :=
  if lexer_is_eof (Some lx) then (false, lx, t)
  else (true, advance lx, set_flags (set_kind_length t TOKEN_CHAR 1) TOKEN_FLAG_NONE).

Definition quote : ascii := Ascii.ascii_of_nat 34.

(** A double-quoted string; consumes up to the closing quote and fails,
    with the input consumed, when there is none. *)
Definition match_string (lx : lexer) (t : token_t) : bool * lexer * token_t :=
  let start := lexer_get_position (Some lx) in
  if Ascii.eqb (lexer_current (Some lx)) quote then
    let lx1 := advance lx in
    let lx2 :=
      advance_while (fun c => negb (Ascii.eqb c quote) && negb (Ascii.eqb c NUL))
        (remaining lx1) lx1 in
    if Ascii.eqb (lexer_current (Some lx2)) quote then
      let lx3 := advance lx2 in
      (true, lx3, set_kind_length t TOKEN_STRING (lexer_position lx3 - start))
    else (false, lx2, t)
  else (false, lx, t).

Definition MATCH_SPACE : fnptr := 1%N.
Definition MATCH_IDENT : fnptr := 2%N.
Definition MATCH_ANY : fnptr := 3%N.
Definition MATCH_STRING : fnptr := 4%N.

Definition matcher_code (f : fnptr) (lx : lexer) (t : token_t)
  : bool * lexer * token_t :=
  if N.eqb f MATCH_SPACE then match_space lx t
  else if N.eqb f MATCH_IDENT then match_ident lx t
  else if N.eqb f MATCH_ANY then match_any lx t
  else if N.eqb f MATCH_STRING then match_string lx t
  else (false, lx, t).

Definition MARK_IGNORED : fnptr := 16%N.

(** [token->flags |= TOKEN_FLAG_IGNORE;] *)
Definition mark_ignored (lx : lexer) (t : token_t) : lexer * token_t :=
  (lx, set_flags t (Z.lor (token_flags t) TOKEN_FLAG_IGNORE)).

Definition action_code (f : fnptr) (lx : lexer) (t : token_t) : lexer * token_t :=
  if N.eqb f MARK_IGNORED then mark_ignored lx t else (lx, t).

Definition next_token := lexer_next_token matcher_code action_code.

Definition buffer (s : string) : cptr := Ptr (CallerBuffer 1 s) 0.
Definition file_name : cptr := Ptr (CallerBuffer 2 "input.txt") 0.

(** [lexer_create] followed by [lexer_add_rule] for each rule. *)
Definition make (s : string) (flags : Z) (rules : list (fnptr * fnptr))
  : option lexer :=
  fold_left (fun l r => snd (lexer_add_rule l (fst r) (snd r))) rules
    (lexer_create true NULL (buffer s) 0 file_name flags).

(** The engine after [pos] calls of [lexer_advance]. *)
Fixpoint advanced (n : nat) (l : option lexer) : option lexer :=
  match n with
  | O => l
  | S n' => advanced n' (lexer_advance l)
  end.

Definition space_ident : list (fnptr * fnptr) :=
  [(MATCH_SPACE, MARK_IGNORED); (MATCH_IDENT, 0%N)].

Definition space_any : list (fnptr * fnptr) :=
  [(MATCH_SPACE, MARK_IGNORED); (MATCH_ANY, 0%N)].

Definition ident_only : list (fnptr * fnptr) := [(MATCH_IDENT, 0%N)].

Definition any_only : list (fnptr * fnptr) := [(MATCH_ANY, 0%N)].

Definition string_ident_any : list (fnptr * fnptr) :=
  [(MATCH_STRING, 0%N); (MATCH_IDENT, 0%N); (MATCH_ANY, 0%N)].

Definition unwrap (l : option lexer) : lexer :=
  match l with
  | Some lx => lx
  | None => mk_lexer NULL 0 0 0 0 NULL [] NULL None 0
  end.

(** The engine made for the input [s], after [n] calls of
    [lexer_advance]. *)
Definition engine (s : string) (flags : Z) (rules : list (fnptr * fnptr))
    (n : nat) : lexer :=
  unwrap (advanced n (make s flags rules)).

(** Two blanks and a letter, white space being ignorable. *)
Definition blanks_x : lexer := engine "  x" 0 space_ident 0.

(** A blank and a letter, with a rule for any character after the rule
    for white space. *)
Definition blank_x : lexer := engine " x" 0 space_any 0.

(** [a#b] with the cursor on the character no rule matches. *)
Definition at_hash : lexer := engine "a#b" 0 ident_only 1.

(** A string that is not closed. *)
Definition open_string : lexer :=
  engine (String quote "ab") 0 string_ident_any 0.

Definition two_words : lexer := engine "ab cd" 0 string_ident_any 0.

(** The cursor at the end of the input. *)
Definition at_end : lexer := engine "a" 0 space_any 1.

(** The cursor on the second character of [ab]. *)
Definition second_of_ab : lexer := engine "ab" 0 [] 1.

(** Any character before identifiers: on [ab] the first rule matches one
    character where the second would match two. *)
Definition any_ident : list (fnptr * fnptr) :=
  [(MATCH_ANY, 0%N); (MATCH_IDENT, 0%N)].

Definition ab_any_first : lexer := engine "ab" 0 any_ident 0.

(** Two blanks and a letter with KeepIgnorable set. *)
Definition blanks_x_kept : lexer :=
  engine "  x" LEXER_FLAG_KEEP_IGNORABLE space_ident 0.

(** [ab cd] with the cursor on [c]. *)
Definition second_word : lexer := engine "ab cd" 0 string_ident_any 3.

(** Two lines. *)
Definition two_lines : lexer :=
  engine (String "a" (String newline "b")) 0 any_only 0.

(** The result of a call that has ended. *)
Definition unwrap_result (r : option (token_t * option lexer))
  : token_t * option lexer :=
  match r with
  | Some p => p
  | None => (token_zero, None)
  end.

(** The tokens of up to [n] calls, each reduced to kind, line, column,
    length and flags. *)
Fixpoint tokens (n : nat) (l : option lexer) : list (Z * Z * Z * Z * Z) :=
  match n with
  | O => []
  | S n' =>
      match next_token 16 l with
      | None => []
      | Some (t, l') =>
          (token_kind t, token_line t, token_column t, token_length t,
           token_flags t)
            :: tokens n' l'
      end
  end.

End Sample.

(** ** Rules that break the habits of the sample rules *)
Module Rogue.

Definition lexer : Type := lexer_t unit.

(** [lexer->source_length = 0; return false;] *)
Definition match_shrink (lx : lexer) (t : token_t) : bool * lexer * token_t :=
  (false,
   mk_lexer (lexer_source lx) 0 (lexer_position lx) (lexer_line lx)
     (lexer_column lx) (lexer_filename lx) (lexer_rules lx)
     (lexer_error_message lx) (lexer_context lx) (lexer_flags lx),
   t).

(** [token->kind = 7; token->length = 100; return true;] *)
Definition match_overlong (lx : lexer) (t : token_t) : bool * lexer * token_t :=
  (true, lx,
   mk_token 7 (token_lexeme t) 100 (token_filename t) (token_line t)
     (token_column t) (token_flags t)).

Definition COMPLAINT : cptr := Ptr (StringLiteral "unexpected") 0.

(** [lexer_advance(lexer); lexer->error_message = complaint; return false;] *)
Definition match_complain (lx : lexer) (t : token_t) : bool * lexer * token_t :=
  let lx' := Sample.advance lx in
  (false,
   mk_lexer (lexer_source lx') (lexer_source_length lx') (lexer_position lx')
     (lexer_line lx') (lexer_column lx') (lexer_filename lx') (lexer_rules lx')
     COMPLAINT (lexer_context lx') (lexer_flags lx'),
   t).

Definition MATCH_SHRINK : fnptr := 1%N.
Definition MATCH_OVERLONG : fnptr := 2%N.
Definition MATCH_COMPLAIN : fnptr := 3%N.

Definition matcher_code (f : fnptr) (lx : lexer) (t : token_t)
  : bool * lexer * token_t :=
  if N.eqb f MATCH_SHRINK then match_shrink lx t
  else if N.eqb f MATCH_OVERLONG then match_overlong lx t
  else if N.eqb f MATCH_COMPLAIN then match_complain lx t
  else (false, lx, t).

Definition action_code (f : fnptr) (lx : lexer) (t : token_t) : lexer * token_t :=
  (lx, t).

Definition next_token := lexer_next_token matcher_code action_code.

(** The engine for [ab] with one rule. *)
Definition with_rule (m : fnptr) : lexer :=
  mk_lexer (Sample.buffer "ab") 2 0 1 1 Sample.file_name [mk_rule m 0%N]
    NULL None 0.

End Rogue.

(** ** Vocabulary of the properties *)

Definition cobject_eqb (o o' : cobject) : bool :=
  match o, o' with
  | StringLiteral s, StringLiteral t => String.eqb s t
  | CallerBuffer i s, CallerBuffer j t => N.eqb i j && String.eqb s t
  | _, _ => false
  end.

(** The source reference of a token ([lexeme], [length]) lies within the
    [source_length] characters of the buffer the engine is bound to. *)
Definition reference_in_buffer {Ctx : Type} (t : token_t) (lx : lexer_t Ctx)
  : bool :=
  match token_lexeme t, lexer_source lx with
  | Ptr o off, Ptr o' off' =>
      cobject_eqb o o' && (off' <=? off) && (0 <=? token_length t)
      && (off + token_length t <=? off' + lexer_source_length lx)
  | _, _ => false
  end.

(** The copy of the working token that [lexer_next_token] returns. *)
Definition token_copy (token : token_t) : token_t :=
  create_token (token_kind token) (token_lexeme token) (token_length token)
    (token_line token) (token_column token) (token_filename token)
    (token_flags token).

(** ** Storage of the rule table *)




Section Tracker.

Context {Ctx : Type}.

(** The engine after [n] calls of [lexer_advance]. *)
Fixpoint advance_times (n : nat) (l : option (lexer_t Ctx))
  : option (lexer_t Ctx) :=
  match n with
  | O => l
  | S n' => advance_times n' (lexer_advance l)
  end.

(** [lexer_add_rule] called for each rule of [rs] in turn, the results
    being dropped. *)
Definition lexer_add_rules (l : option (lexer_t Ctx))
    (rs : list (fnptr * fnptr)) : option (lexer_t Ctx) :=
  fold_left (fun l r => snd (lexer_add_rule l (fst r) (snd r))) rs l.

(** The cursor is within the buffer, whose length is a [size_t]. *)
Definition in_buffer (lx : lexer_t Ctx) : Prop :=
  0 <= lexer_position lx <= lexer_source_length lx
  /\ lexer_source_length lx < size_modulus.

(** [lx'] is [lx] with the cursor further on, within the same length and
    with the same rules. *)
Definition moved_forward (lx lx' : lexer_t Ctx) : Prop :=
  lexer_rules lx' = lexer_rules lx
  /\ lexer_source_length lx' = lexer_source_length lx
  /\ lexer_position lx <= lexer_position lx' <= lexer_source_length lx.

End Tracker.

(** The number of newlines among the [n] characters from index [p]. *)
Fixpoint count_newlines (src : cptr) (p : Z) (n : nat) : Z :=
  match n with
  | O => 0
  | S n' =>
      (if Ascii.eqb (load src p) newline then 1 else 0)
      + count_newlines src (p + 1) n'
  end.

Section Scan.

Context {Ctx : Type}.
Variable matcher_code :
  fnptr -> lexer_t Ctx -> token_t -> bool * lexer_t Ctx * token_t.
Variable action_code : fnptr -> lexer_t Ctx -> token_t -> lexer_t Ctx * token_t.

Local Abbreviation lexer := (lexer_t Ctx).
Local Abbreviation scan_rules := (for_rules matcher_code action_code).
Local Abbreviation scan := (while_loop matcher_code action_code).
Local Abbreviation next_token := (lexer_next_token matcher_code action_code).

(** The rule at index [i] of the table. *)
Definition rule_at (lx : lexer) (i : nat) : lexer_rule_t :=
  nth i (lexer_rules lx) null_rule.

(** The working token as the attempt of a rule receives it, for the
    origin [sp], [sl], [sc]. *)
Definition attempt_token (lx : lexer) (token : token_t) (sp sl sc : Z)
  : token_t :=
  set_token_start token sl sc (ptr_add (lexer_source lx) sp).

(** The call of the matcher of rule [i]. *)
Definition attempt (lx : lexer) (token : token_t) (sp sl sc : Z) (i : nat)
  : bool * lexer * token_t :=
  matcher_code (matcher (rule_at lx i)) lx (attempt_token lx token sp sl sc).

(** [failed_attempts sp sl sc lx token i lx' token' j]: from the engine
    [lx] and working token [token], the matchers of the rules [i], ...,
    [j - 1] are called in turn and each reports failure; [lx'] and
    [token'] are the engine and the working token with which rule [j]
    is reached. *)
Inductive failed_attempts (sp sl sc : Z)
  : lexer -> token_t -> nat -> lexer -> token_t -> nat -> Prop :=
| failed_none lx token i : failed_attempts sp sl sc lx token i lx token i
| failed_next lx token i lx1 token1 lx' token' j :
    (i < List.length (lexer_rules lx))%nat ->
    attempt lx token sp sl sc i = (false, lx1, token1) ->
    failed_attempts sp sl sc (set_location lx1 sp sl sc) token1 (S i)
      lx' token' j ->
    failed_attempts sp sl sc lx token i lx' token' j.

(** What the [while] loop does with the outcome of a pass. *)
Definition after_pass (fuel : nat) (o : option for_outcome)
  : option while_outcome :=
  match o with
  | None => None
  | Some (ForReturn result lx') => Some (Returned result lx')
  | Some (ForExit reset lx' token') =>
      if negb reset then Some (NoMatch lx' token') else scan fuel lx' token'
  end.

(** The token [lexer_next_token] returns at the end of the input. *)
Definition eof_token (lx : lexer) : token_t :=
  create_token INTERNAL_TOKEN_EOF EOF_LITERAL 0 (lexer_line lx)
    (lexer_column lx) (lexer_filename lx) 0.

(** The error token for the character at the cursor. *)
Definition error_token (lx : lexer) : token_t :=
  create_token INTERNAL_TOKEN_ERROR
    (ptr_add (lexer_source lx) (lexer_position lx)) 1
    (lexer_line lx) (lexer_column lx) (lexer_filename lx) 0.

(** [n] calls of [lexer_next_token] in a row: the tokens and the engine
    afterwards. *)
Fixpoint next_tokens (fuel n : nat) (l : option lexer)
  : option (list token_t * option lexer) :=
  match n with
  | O => Some ([], l)
  | S n' =>
      match next_token fuel l with
      | None => None
      | Some (t, l') =>
          match next_tokens fuel n' l' with
          | None => None
          | Some (ts, l'') => Some (t :: ts, l'')
          end
      end
  end.

(** The three sorts of token [lexer_next_token] returns, with the engine
    [l'] it leaves.  An EOF token made by the engine refers to the
    string literal of the library. *)
Definition engine_eof_token (result : token_t) : Prop :=
  token_kind result = INTERNAL_TOKEN_EOF
  /\ token_lexeme result = EOF_LITERAL
  /\ token_length result = 0.

(** An ERROR token made by the engine refers to the character at the
    cursor of the engine [lxp] it was made from, within the buffer of
    [lxp]. *)
Definition engine_error_token (result : token_t) (l' : option lexer) : Prop :=
  exists lxp : lexer,
    result = error_token lxp
    /\ l' = lexer_advance (Some lxp)
    /\ lexer_position lxp < lexer_source_length lxp
    /\ (forall (o : cobject) (off : Z),
           lexer_source lxp = Ptr o off -> 0 <= lexer_position lxp ->
           reference_in_buffer result lxp = true).

(** *** Disciplines of the code of the rules *)

(** Matchers and actions that leave the file name of the working token
    as it is. *)
Definition keeps_token_filename : Prop :=
  (forall (f : fnptr) (lx : lexer) (t : token_t),
      token_filename (snd (matcher_code f lx t)) = token_filename t)
  /\ (forall (f : fnptr) (lx : lexer) (t : token_t),
         token_filename (snd (action_code f lx t)) = token_filename t).

(** Matchers and actions that only move the cursor forward within the
    buffer (as [lexer_advance] does) and leave the rules and the length
    alone. *)
Definition forward_code : Prop :=
  (forall (f : fnptr) (lx : lexer) (t : token_t),
      in_buffer lx -> moved_forward lx (snd (fst (matcher_code f lx t))))
  /\ (forall (f : fnptr) (lx : lexer) (t : token_t),
         in_buffer lx -> moved_forward lx (fst (action_code f lx t))).

(** A match whose token is discarded as ignorable has consumed input. *)
Definition discards_consume : Prop :=
  forall (rule : lexer_rule_t) (lx lx1 lx2 : lexer) (t t1 t2 : token_t),
    in_buffer lx ->
    matcher_code (matcher rule) lx t = (true, lx1, t1) ->
    run_action action_code rule lx1 t1 = (lx2, t2) ->
    is_discarded lx2 t2 = true ->
    lexer_position lx < lexer_position lx2.

(** Every match has consumed input. *)
Definition matches_consume : Prop :=
  forall (rule : lexer_rule_t) (lx lx1 lx2 : lexer) (t t1 t2 : token_t),
    in_buffer lx ->
    matcher_code (matcher rule) lx t = (true, lx1, t1) ->
    run_action action_code rule lx1 t1 = (lx2, t2) ->
    lexer_position lx < lexer_position lx2.

(** Matchers and actions that leave the line, the column and the lexeme
    of the working token as the engine set them. *)
Definition keeps_token_start : Prop :=
  (forall (f : fnptr) (lx : lexer) (t : token_t),
      token_line (snd (matcher_code f lx t)) = token_line t
      /\ token_column (snd (matcher_code f lx t)) = token_column t
      /\ token_lexeme (snd (matcher_code f lx t)) = token_lexeme t)
  /\ (forall (f : fnptr) (lx : lexer) (t : token_t),
         token_line (snd (action_code f lx t)) = token_line t
         /\ token_column (snd (action_code f lx t)) = token_column t
         /\ token_lexeme (snd (action_code f lx t)) = token_lexeme t).

(** A matched token that carries the location of the engine [lxa] from
    which the matcher of its rule was called. *)
Definition located_token (result : token_t) (l' : option lexer) : Prop :=
  exists (lxa : lexer) (toka : token_t) (k : nat) (lx1 lx2 : lexer)
         (token1 token2 : token_t),
    attempt lxa toka (lexer_position lxa) (lexer_line lxa) (lexer_column lxa) k
    = (true, lx1, token1)
    /\ run_action action_code (rule_at lxa k) lx1 token1 = (lx2, token2)
    /\ l' = Some lx2
    /\ result = token_copy token2
    /\ token_line result = lexer_line lxa
    /\ token_column result = lexer_column lxa
    /\ token_lexeme result
       = ptr_add (lexer_source lxa) (lexer_position lxa).

(** Matchers and actions that leave the flags of the engine alone. *)
Definition keeps_engine_flags : Prop :=
  (forall (f : fnptr) (lx : lexer) (t : token_t),
      lexer_flags (snd (fst (matcher_code f lx t))) = lexer_flags lx)
  /\ (forall (f : fnptr) (lx : lexer) (t : token_t),
         lexer_flags (fst (action_code f lx t)) = lexer_flags lx).

(** *** The algorithm of [lexer_next_token], stated apart from its code *)

(** [ts] is the working token [t] as a matcher receives it for the
    origin [p], [l], [c]: line, column and lexeme are those of the
    origin, the other fields those of [t]. *)
Definition stamped (lx : lexer) (p l c : Z) (t ts : token_t) : Prop :=
  token_line ts = l
  /\ token_column ts = c
  /\ token_lexeme ts = ptr_add (lexer_source lx) p
  /\ token_kind ts = token_kind t
  /\ token_length ts = token_length t
  /\ token_filename ts = token_filename t
  /\ token_flags ts = token_flags t.

(** [lxr] is the engine [lx1] back at [p], [l], [c]: position, line and
    column are those, the other fields those of [lx1]. *)
Definition relocated (lx1 : lexer) (p l c : Z) (lxr : lexer) : Prop :=
  lexer_position lxr = p
  /\ lexer_line lxr = l
  /\ lexer_column lxr = c
  /\ lexer_source lxr = lexer_source lx1
  /\ lexer_source_length lxr = lexer_source_length lx1
  /\ lexer_filename lxr = lexer_filename lx1
  /\ lexer_rules lxr = lexer_rules lx1
  /\ lexer_error_message lxr = lexer_error_message lx1
  /\ lexer_context lxr = lexer_context lx1
  /\ lexer_flags lxr = lexer_flags lx1.

(** The action of rule [r], if it has one, takes [lx1] and [t1] to
    [lx2] and [t2]. *)
Definition action_leaves (r : lexer_rule_t) (lx1 : lexer) (t1 : token_t)
    (lx2 : lexer) (t2 : token_t) : Prop :=
  (action r = 0%N /\ lx2 = lx1 /\ t2 = t1)
  \/ (action r <> 0%N /\ action_code (action r) lx1 t1 = (lx2, t2)).

(** The token carries the Ignore flag and the engine does not keep
    ignorable tokens. *)
Definition ignored (lx2 : lexer) (t2 : token_t) : Prop :=
  Z.land (token_flags t2) TOKEN_FLAG_IGNORE <> 0
  /\ Z.land (lexer_flags lx2) LEXER_FLAG_KEEP_IGNORABLE = 0.

(** What one pass over the rules comes to: the first rule whose matcher
    succeeds, with the engine and the token that matcher and action
    leave, or no rule. *)
Inductive pass_result : Type :=
| FirstMatch (lx : lexer) (t : token_t)
| NoRuleMatches (lx : lexer) (t : token_t).

(** [pass_spec p l c lx t i n o]: a pass with origin [p], [l], [c] that
    is at rule [i] with the engine [lx] and the working token [t] comes
    to [o], after [n] steps.  The rules are tried in the order of the
    table; the matcher of a rule receives the working token stamped with
    the origin; after a failure the engine is back at the origin and
    the next rule is tried. *)
Inductive pass_spec (p l c : Z)
  : lexer -> token_t -> nat -> nat -> pass_result -> Prop :=
| pass_no_more lx t i :
    (List.length (lexer_rules lx) <= i)%nat ->
    pass_spec p l c lx t i 1 (NoRuleMatches lx t)
| pass_rule_fails lx t i r ts lx1 t1 lxr n o :
    nth_error (lexer_rules lx) i = Some r ->
    stamped lx p l c t ts ->
    matcher_code (matcher r) lx ts = (false, lx1, t1) ->
    relocated lx1 p l c lxr ->
    pass_spec p l c lxr t1 (S i) n o ->
    pass_spec p l c lx t i (S n) o
| pass_rule_matches lx t i r ts lx1 t1 lx2 t2 :
    nth_error (lexer_rules lx) i = Some r ->
    stamped lx p l c t ts ->
    matcher_code (matcher r) lx ts = (true, lx1, t1) ->
    action_leaves r lx1 t1 lx2 t2 ->
    pass_spec p l c lx t i 1 (FirstMatch lx2 t2).

(** What the passes of one call come to. *)
Inductive scan_result : Type :=
| TokenMatched (t : token_t) (lx : lexer)
| NothingMatched (lx : lexer) (t : token_t).

(** [scan_spec lx t n o]: from the engine [lx] with the working token
    [t], passes are made, each from rule 0 and with the location of the
    engine as origin, until one comes to a token that is not ignored
    or to no rule; after an ignored token the next pass starts from the
    engine and the token as they were left.  [n] bounds the steps. *)
Inductive scan_spec : lexer -> token_t -> nat -> scan_result -> Prop :=
| scan_returns lx t n lx2 t2 :
    pass_spec (lexer_position lx) (lexer_line lx) (lexer_column lx)
      lx t O n (FirstMatch lx2 t2) ->
    ~ ignored lx2 t2 ->
    scan_spec lx t (S n) (TokenMatched t2 lx2)
| scan_gives_up lx t n lxa ta :
    pass_spec (lexer_position lx) (lexer_line lx) (lexer_column lx)
      lx t O n (NoRuleMatches lxa ta) ->
    scan_spec lx t (S n) (NothingMatched lxa ta)
| scan_restarts lx t n lx2 t2 m o :
    pass_spec (lexer_position lx) (lexer_line lx) (lexer_column lx)
      lx t O n (FirstMatch lx2 t2) ->
    ignored lx2 t2 ->
    scan_spec lx2 t2 m o ->
    scan_spec lx t (S (Nat.max n m)) o.

(** [result] is an EOF token stamped with the line, column and file
    name of [lx]. *)
Definition eof_stamped (lx : lexer) (result : token_t) : Prop :=
  token_kind result = INTERNAL_TOKEN_EOF
  /\ token_lexeme result = EOF_LITERAL
  /\ token_length result = 0
  /\ token_line result = lexer_line lx
  /\ token_column result = lexer_column lx
  /\ token_filename result = lexer_filename lx
  /\ token_flags result = 0.

(** [result] is an ERROR token for the one character at the cursor of
    [lx], stamped with the line, column and file name of [lx]. *)
Definition error_stamped (lx : lexer) (result : token_t) : Prop :=
  token_kind result = INTERNAL_TOKEN_ERROR
  /\ token_lexeme result = ptr_add (lexer_source lx) (lexer_position lx)
  /\ token_length result = 1
  /\ token_line result = lexer_line lx
  /\ token_column result = lexer_column lx
  /\ token_filename result = lexer_filename lx
  /\ token_flags result = 0.

(** What a call returns when its passes come to [o]: the matched token
    and the engine of the match; or, when nothing matched, the EOF token
    and the engine as it is when the cursor is at the end, the ERROR
    token and the engine one character further otherwise. *)
Definition call_returns (o : scan_result) (result : token_t)
    (l' : option lexer) : Prop :=
  match o with
  | TokenMatched t lx2 => result = t /\ l' = Some lx2
  | NothingMatched lxa _ =>
      (lexer_source_length lxa <= lexer_position lxa
       /\ eof_stamped lxa result /\ l' = Some lxa)
      \/ (lexer_position lxa < lexer_source_length lxa
          /\ error_stamped lxa result
          /\ l' = lexer_advance (Some lxa))
  end.

(** The three sorts of token a call on the engine [l] returns, by their
    source reference.  An EOF token of the engine: the engine was null,
    or at the end on entry, or at the end after passes that came to no
    rule.  It refers to the string literal of the library, which is no
    place in a buffer of the caller. *)
Definition eof_literal_reference (l : option lexer) (result : token_t)
    (l' : option lexer) : Prop :=
  token_kind result = INTERNAL_TOKEN_EOF
  /\ token_lexeme result = EOF_LITERAL
  /\ token_length result = 0
  /\ ((l = None /\ l' = None)
      \/ (exists lx : lexer,
             l = Some lx
             /\ lexer_source_length lx <= lexer_position lx
             /\ eof_stamped lx result
             /\ l' = Some lx)
      \/ (exists (lx : lexer) (n : nat) (lxp : lexer) (tp : token_t),
             l = Some lx
             /\ lexer_position lx < lexer_source_length lx
             /\ scan_spec lx token_zero n (NothingMatched lxp tp)
             /\ lexer_source_length lxp <= lexer_position lxp
             /\ eof_stamped lxp result
             /\ l' = Some lxp))
  /\ (forall (lxe : lexer) (id : N) (chars : string) (off : Z),
         l' = Some lxe ->
         lexer_source lxe = Ptr (CallerBuffer id chars) off ->
         reference_in_buffer result lxe = false).

(** An ERROR token of the engine: the passes of the call came to no
    rule, leaving the engine [lxp] before the end.  The token refers to
    the one character at the cursor of [lxp], within the buffer of
    [lxp]. *)
Definition error_buffer_reference (l : option lexer) (result : token_t)
    (l' : option lexer) : Prop :=
  exists (lx : lexer) (n : nat) (lxp : lexer) (tp : token_t),
    l = Some lx
    /\ lexer_position lx < lexer_source_length lx
    /\ scan_spec lx token_zero n (NothingMatched lxp tp)
    /\ lexer_position lxp < lexer_source_length lxp
    /\ error_stamped lxp result
    /\ l' = lexer_advance (Some lxp)
    /\ (forall (o : cobject) (off : Z),
           lexer_source lxp = Ptr o off -> 0 <= lexer_position lxp ->
           reference_in_buffer result lxp = true).

(** [result] is the working token as the matcher and the action of a
    rule left it, with the engine [lx2]; the matcher was called on the
    engine [lxm] with a token [ts] that the engine had pointed at the
    cursor of [lxm].  Nothing is checked afterwards: when the lexeme and
    the binding of the buffer are still those, the reference lies within
    the buffer exactly when the length that was left is not negative
    and not more than what remains of the buffer. *)
Definition matcher_left (lx2 : lexer) (result : token_t) : Prop :=
  exists (lxm : lexer) (k : nat) (r : lexer_rule_t) (ts : token_t)
         (lx1 : lexer) (t1 : token_t),
    nth_error (lexer_rules lxm) k = Some r
    /\ token_line ts = lexer_line lxm
    /\ token_column ts = lexer_column lxm
    /\ token_lexeme ts = ptr_add (lexer_source lxm) (lexer_position lxm)
    /\ matcher_code (matcher r) lxm ts = (true, lx1, t1)
    /\ action_leaves r lx1 t1 lx2 result
    /\ (forall (o : cobject) (off : Z),
           lexer_source lxm = Ptr o off ->
           0 <= lexer_position lxm ->
           token_lexeme result = token_lexeme ts ->
           lexer_source lx2 = lexer_source lxm ->
           (reference_in_buffer result lx2 = true
            <-> 0 <= token_length result
                /\ lexer_position lxm + token_length result
                   <= lexer_source_length lx2)).

(** A token from a rule: the passes of the call came to the token
    [result] of a first match that is not ignored. *)
Definition matcher_left_reference (l : option lexer) (result : token_t)
    (l' : option lexer) : Prop :=
  exists (lx : lexer) (n : nat) (lx2 : lexer),
    l = Some lx
    /\ lexer_position lx < lexer_source_length lx
    /\ scan_spec lx token_zero n (TokenMatched result lx2)
    /\ l' = Some lx2
    /\ matcher_left lx2 result.

(** ** The steps of the loops *)

Lemma while_loop_pass (fuel : nat) (lx : lexer) (token : token_t) :
  scan (S fuel) lx token =
  after_pass fuel
    (scan_rules fuel false lx token
       (lexer_position lx) (lexer_line lx) (lexer_column lx) O).
Proof.
  cbn [while_loop after_pass].
  destruct (for_rules _ _ _ _ _ _ _ _ _ _) as [[r l | r l t] | ]; reflexivity.
Qed.

Lemma for_rules_end (fuel : nat) (reset : bool) (lx : lexer) (token : token_t)
    (sp sl sc : Z) (i : nat) :
  (List.length (lexer_rules lx) <= i)%nat ->
  scan_rules (S fuel) reset lx token sp sl sc i = Some (ForExit reset lx token).
Proof.
  intros Hi. cbn [for_rules].
  apply Nat.ltb_ge in Hi. rewrite Hi. reflexivity.
Qed.

Lemma for_rules_failure (fuel : nat) (lx : lexer) (token : token_t)
    (sp sl sc : Z) (i : nat) (lx1 : lexer) (token1 : token_t) :
  (i < List.length (lexer_rules lx))%nat ->
  attempt lx token sp sl sc i = (false, lx1, token1) ->
  scan_rules (S fuel) false lx token sp sl sc i =
  scan_rules fuel false (set_location lx1 sp sl sc) token1 sp sl sc (S i).
Proof.
  intros Hi Hm. cbn [for_rules].
  apply Nat.ltb_lt in Hi. rewrite Hi.
  unfold attempt, rule_at, attempt_token in Hm. rewrite Hm. reflexivity.
Qed.


Lemma failed_attempts_le (sp sl sc : Z) (lx : lexer) (token : token_t) (i : nat)
    (lx' : lexer) (token' : token_t) (j : nat) :
  failed_attempts sp sl sc lx token i lx' token' j -> (i <= j)%nat.
Proof.
  induction 1; lia.
Qed.

(** Failed attempts cost one unit of fuel each and lead the loop to the
    rule they stop at. *)
Lemma failed_attempts_for_rules (sp sl sc : Z) (lx : lexer) (token : token_t)
    (i : nat) (lx' : lexer) (token' : token_t) (j : nat) :
  failed_attempts sp sl sc lx token i lx' token' j ->
  forall fuel : nat,
    scan_rules ((j - i) + fuel) false lx token sp sl sc i =
    scan_rules fuel false lx' token' sp sl sc j.
Proof.
  induction 1 as [lx token i | lx token i lx1 token1 lx' token' j Hi Hm Hrest IH];
    intros fuel.
  - replace (i - i)%nat with O by lia. reflexivity.
  - pose proof (failed_attempts_le _ _ _ _ _ _ _ _ _ Hrest) as Hle.
    replace ((j - i) + fuel)%nat with (S ((j - S i) + fuel)) by lia.
    rewrite (for_rules_failure _ _ _ _ _ _ _ _ _ Hi Hm).
    apply IH.
Qed.

(** Conversely, a pass that ends without a match and without a discard
    has gone through failed attempts up to the end of the table. *)
Lemma for_rules_no_match (fuel : nat) :
  forall (lx : lexer) (token : token_t) (sp sl sc : Z) (i : nat)
         (lx' : lexer) (token' : token_t),
    scan_rules fuel false lx token sp sl sc i = Some (ForExit false lx' token') ->
    exists j : nat,
      failed_attempts sp sl sc lx token i lx' token' j
      /\ (List.length (lexer_rules lx') <= j)%nat.
Proof.
  induction fuel as [| fuel IH]; intros lx token sp sl sc i lx' token' H.
  - discriminate.
  - cbn [for_rules] in H.
    destruct (i <? List.length (lexer_rules lx))%nat eqn:Hi.
    + destruct (matcher_code _ _ _) as [[matched lx1] token1] eqn:Hm.
      destruct matched.
      * destruct (run_action _ _ _ _) as [lxr tokenr].
        destruct (is_discarded lxr tokenr); discriminate.
      * apply IH in H. destruct H as (j & Hfail & Hj).
        exists j. split; [| exact Hj].
        eapply failed_next; [apply Nat.ltb_lt; exact Hi | exact Hm | exact Hfail].
    + injection H as <- <-. exists i. split; [apply failed_none |].
      apply Nat.ltb_ge. exact Hi.
Qed.

(** Every attempt of a pass starts at the origin of the pass. *)
Lemma failed_attempts_location (sp sl sc : Z) (lx : lexer) (token : token_t)
    (i : nat) (lx' : lexer) (token' : token_t) (j : nat) :
  failed_attempts sp sl sc lx token i lx' token' j ->
  lexer_position lx = sp -> lexer_line lx = sl -> lexer_column lx = sc ->
  lexer_position lx' = sp /\ lexer_line lx' = sl /\ lexer_column lx' = sc.
Proof.
  induction 1; intros Hp Hl Hc.
  - auto.
  - apply IHfailed_attempts; reflexivity.
Qed.

(** More fuel does not change a result. *)
Lemma for_rules_more_fuel (fuel : nat) :
  forall (reset : bool) (lx : lexer) (token : token_t) (sp sl sc : Z) (i : nat)
         (o : for_outcome),
    scan_rules fuel reset lx token sp sl sc i = Some o ->
    scan_rules (S fuel) reset lx token sp sl sc i = Some o.
Proof.
  induction fuel as [| fuel IH]; intros reset lx token sp sl sc i o H.
  - discriminate.
  - cbn [for_rules] in H |- *.
    destruct (i <? List.length (lexer_rules lx))%nat; [| exact H].
    destruct (matcher_code _ _ _) as [[matched lx1] token1].
    destruct matched; [exact H |].
    apply IH. exact H.
Qed.

Lemma while_loop_more_fuel (fuel : nat) :
  forall (lx : lexer) (token : token_t) (o : while_outcome),
    scan fuel lx token = Some o -> scan (S fuel) lx token = Some o.
Proof.
  induction fuel as [| fuel IH]; intros lx token o H.
  - discriminate.
  - rewrite while_loop_pass in H. rewrite while_loop_pass.
    destruct (scan_rules fuel _ _ _ _ _ _ _) as [fo |] eqn:Hf; [| discriminate].
    rewrite (for_rules_more_fuel _ _ _ _ _ _ _ _ _ Hf).
    destruct fo as [r l | r l t]; cbn [after_pass] in H |- *; [exact H |].
    destruct (negb r); [exact H |].
    apply IH. exact H.
Qed.


Lemma wrap_size_small (z : Z) : is_size z -> wrap_size z = z.
Proof.
  intros H. unfold wrap_size. apply Z.mod_small. exact H.
Qed.

(** ** End of input *)

(** C10: on a null engine [lexer_next_token] returns an EOF token with
    line 0, column 0 and a null file name, [lexer_is_eof] returns true,
    and [lexer_get_position], [lexer_get_line] and [lexer_get_column]
    return 0. *)
Theorem null_engine_defaults (fuel : nat) :
  next_token fuel None
  = Some (create_token INTERNAL_TOKEN_EOF EOF_LITERAL 0 0 0 NULL 0, None)
  /\ lexer_is_eof (@None lexer) = true
  /\ lexer_get_position (@None lexer) = 0
  /\ lexer_get_line (@None lexer) = 0
  /\ lexer_get_column (@None lexer) = 0.
Proof.
  repeat split.
Qed.

(** ** Reset *)

(** C8: [lexer_reset] with a non-null source sets the position to 0, the
    line and the column to 1, binds the new buffer, its length (the
    length of the string when 0 is passed) and the file name, and keeps
    the rule table and the context (and the flags and the error
    message); with a null source the engine is unchanged, and on a null
    engine nothing is done. *)
Theorem reset_rebinds_and_keeps_rules (lx : lexer) (obj : cobject) (off : Z)
    (length : Z) (filename : cptr) :
  (exists lx',
      lexer_reset (Some lx) (Ptr obj off) length filename = Some lx'
      /\ lexer_position lx' = 0 /\ lexer_line lx' = 1 /\ lexer_column lx' = 1
      /\ lexer_source lx' = Ptr obj off
      /\ lexer_source_length lx'
         = (if length =? 0 then strlen (Ptr obj off) else length)
      /\ lexer_filename lx' = filename
      /\ lexer_rules lx' = lexer_rules lx
      /\ lexer_context lx' = lexer_context lx
      /\ lexer_flags lx' = lexer_flags lx
      /\ lexer_error_message lx' = lexer_error_message lx)
  /\ lexer_reset (Some lx) NULL length filename = Some lx
  /\ lexer_reset (@None lexer) (Ptr obj off) length filename = None.
Proof.
  split; [| split; reflexivity].
  eexists. split; [reflexivity |]. cbn. repeat split.
Qed.

(** ** Lookahead *)

(** C7, as the code has it: the index [position + k] is computed in
    [size_t].  Without overflow [lexer_peek] returns the character [k]
    places ahead of the cursor when that index is below the length and
    the sentinel 0 otherwise; when the sum overflows, the index wraps
    around to [position + k - 2^w] and the character there (at or
    before the cursor) is returned when it is below the length. *)
Theorem peek_wraps_around (lx : lexer) (k : Z) :
  is_size (lexer_position lx) -> is_size k ->
  (lexer_position lx + k < size_modulus ->
   lexer_peek (Some lx) k
   = if lexer_position lx + k <? lexer_source_length lx
     then load (lexer_source lx) (lexer_position lx + k) else NUL)
  /\ (size_modulus <= lexer_position lx + k ->
      lexer_peek (Some lx) k
      = if lexer_position lx + k - size_modulus <? lexer_source_length lx
        then load (lexer_source lx) (lexer_position lx + k - size_modulus)
        else NUL).
Proof.
  intros [Hp0 Hp1] [Hk0 Hk1]. unfold lexer_peek. split; intros Hsum.
  - rewrite wrap_size_small by (unfold is_size; lia).
    rewrite Z.ltb_antisym. destruct (_ <=? _); reflexivity.
  - assert (Hw : wrap_size (lexer_position lx + k)
                 = lexer_position lx + k - size_modulus).
    { unfold wrap_size. symmetry.
      apply (Z.mod_unique _ _ 1); lia. }
    rewrite Hw. rewrite Z.ltb_antisym. destruct (_ <=? _); reflexivity.
Qed.

(** ** The first success *)


Lemma next_token_scan (fuel : nat) (lx : lexer) :
  lexer_is_eof (Some lx) = false ->
  next_token fuel (Some lx) = conclude (scan fuel lx token_zero).
Proof.
  intros Heof. unfold lexer_next_token. rewrite Heof. reflexivity.
Qed.


(** ** Unmatched input *)

Lemma advance_moves_one (lx : lexer) :
  0 <= lexer_position lx ->
  lexer_position lx < lexer_source_length lx ->
  lexer_source_length lx < size_modulus ->
  exists lx' : lexer,
    lexer_advance (Some lx) = Some lx'
    /\ lexer_position lx' = lexer_position lx + 1
    /\ lexer_source lx' = lexer_source lx
    /\ lexer_source_length lx' = lexer_source_length lx
    /\ lexer_rules lx' = lexer_rules lx.
Proof.
  intros H0 H1 H2. unfold lexer_advance.
  apply Z.leb_gt in H1 as Hlt. rewrite Hlt.
  assert (Hw : wrap_size (lexer_position lx + 1) = lexer_position lx + 1)
    by (apply wrap_size_small; unfold is_size; lia).
  destruct (Ascii.eqb _ _); eexists; (split; [reflexivity |]);
    cbn; rewrite Hw; repeat split.
Qed.

Lemma no_match_pass (lx : lexer) (token : token_t) (lx' : lexer)
    (token' : token_t) (j fuel : nat) :
  failed_attempts (lexer_position lx) (lexer_line lx) (lexer_column lx)
    lx token O lx' token' j ->
  (List.length (lexer_rules lx') <= j)%nat ->
  (j < fuel)%nat ->
  scan (S fuel) lx token = Some (NoMatch lx' token').
Proof.
  intros Hfail Hj Hfuel. rewrite while_loop_pass.
  replace fuel with ((j - 0) + S (fuel - S j))%nat by lia.
  rewrite (failed_attempts_for_rules _ _ _ _ _ _ _ _ _ Hfail).
  rewrite for_rules_end by exact Hj. reflexivity.
Qed.

(** ** Source references *)

Lemma cobject_eqb_refl (o : cobject) : cobject_eqb o o = true.
Proof.
  destruct o; cbn; rewrite ?N.eqb_refl, ?String.eqb_refl; reflexivity.
Qed.

Lemma error_token_in_buffer (lx : lexer) (o : cobject) (off : Z) :
  lexer_source lx = Ptr o off ->
  0 <= lexer_position lx ->
  lexer_position lx < lexer_source_length lx ->
  reference_in_buffer (error_token lx) lx = true.
Proof.
  intros Hs H0 H1. unfold reference_in_buffer, error_token.
  cbn [create_token token_lexeme token_length]. rewrite Hs.
  cbn [ptr_add]. rewrite cobject_eqb_refl. cbn [andb].
  repeat (apply andb_true_intro; split); apply Z.leb_le; lia.
Qed.

(** A token returned from inside the [for] loop is the copy of the
    working token of a successful attempt. *)
Lemma for_rules_returned (fuel : nat) :
  forall (reset : bool) (lx : lexer) (token : token_t) (sp sl sc : Z) (i : nat)
         (result : token_t) (lx2 : lexer),
    scan_rules fuel reset lx token sp sl sc i = Some (ForReturn result lx2) ->
    exists (lxa : lexer) (toka : token_t) (k : nat) (lx1 : lexer)
           (token1 token2 : token_t),
      attempt lxa toka sp sl sc k = (true, lx1, token1)
      /\ run_action action_code (rule_at lxa k) lx1 token1 = (lx2, token2)
      /\ result = token_copy token2.
Proof.
  induction fuel as [| fuel IH]; intros reset lx token sp sl sc i result lx2 H.
  - discriminate.
  - cbn [for_rules] in H.
    destruct (i <? List.length (lexer_rules lx))%nat; [| discriminate].
    destruct (matcher_code _ _ _) as [[matched lx1] token1] eqn:Hm.
    destruct matched.
    + destruct (run_action _ _ _ _) as [lxr tokenr] eqn:Ha.
      destruct (is_discarded lxr tokenr); [discriminate |].
      injection H as <- <-.
      exists lx, token, (if reset then O else i), lx1, token1, tokenr.
      repeat split; assumption.
    + apply IH in H. exact H.
Qed.

Lemma while_loop_returned (fuel : nat) :
  forall (lx : lexer) (token : token_t) (result : token_t) (lx2 : lexer),
    scan fuel lx token = Some (Returned result lx2) ->
    exists (lxa : lexer) (toka : token_t) (sp sl sc : Z) (k : nat)
           (lx1 : lexer) (token1 token2 : token_t),
      attempt lxa toka sp sl sc k = (true, lx1, token1)
      /\ run_action action_code (rule_at lxa k) lx1 token1 = (lx2, token2)
      /\ result = token_copy token2.
Proof.
  induction fuel as [| fuel IH]; intros lx token result lx2 H.
  - discriminate.
  - rewrite while_loop_pass in H.
    destruct (scan_rules fuel _ _ _ _ _ _ _) as [[r l | r l t] |] eqn:Hf;
      cbn [after_pass] in H.
    + injection H as <- <-.
      destruct (for_rules_returned _ _ _ _ _ _ _ _ _ _ Hf)
        as (lxa & toka & k & lx1 & t1 & t2 & H1 & H2 & H3).
      exists lxa, toka, (lexer_position lx), (lexer_line lx),
        (lexer_column lx), k, lx1, t1, t2.
      auto.
    + destruct (negb r); [discriminate |]. apply IH in H. exact H.
    + discriminate.
Qed.

(** ** The working token across attempts *)



End Scan.

(** ** The engine on sample inputs *)

(** An identifier, an ERROR token for the character no rule matches, an
    identifier, then EOF: each call moves forward. *)
Example no_match_recovery :
  Sample.tokens 4 (Sample.make "a#b" 0 Sample.ident_only)
  = [(3, 1, 1, 1, 0); (1, 1, 2, 1, 0); (3, 1, 3, 1, 0); (0, 1, 4, 0, 0)].
Proof. vm_compute. reflexivity. Qed.

(** With KeepIgnorable set the white space is returned, then the
    identifier at column 3. *)
Example keep_ignorable_returns_both :
  Sample.tokens 3
    (Sample.make "  x" LEXER_FLAG_KEEP_IGNORABLE Sample.space_ident)
  = [(2, 1, 1, 2, 1); (3, 1, 3, 1, 0); (0, 1, 4, 0, 0)].
Proof. vm_compute. reflexivity. Qed.

(** With KeepIgnorable unset and a rule for any character that writes
    the flags, the white space is skipped and the letter is returned at
    column 3. *)
Example ignorable_skipped :
  Sample.tokens 2 (Sample.make "  x" 0 Sample.space_any)
  = [(4, 1, 3, 1, 0); (0, 1, 4, 0, 0)].
Proof. vm_compute. reflexivity. Qed.

(** Lines and columns across a newline. *)
Example line_and_column :
  Sample.tokens 3
    (Sample.make (String "a" (String newline "b")) 0 Sample.any_only)
  = [(4, 1, 1, 1, 0); (4, 1, 2, 1, 0); (4, 2, 1, 1, 0)].
Proof. vm_compute. reflexivity. Qed.

(** [lexer_reset] in the middle of a scan: the next token is the first
    of the new buffer, by the rules registered before. *)
Example reset_mid_scan :
  Sample.tokens 1
    (lexer_reset (Some Sample.at_hash) (Sample.buffer "xyz") 0 Sample.file_name)
  = [(3, 1, 1, 3, 0)].
Proof. vm_compute. reflexivity. Qed.

(** ** The properties on concrete inputs *)

(** With the cursor on the second character of [ab], a lookahead of
    [2^w - 1] wraps around to the first character. *)
Lemma peek_wraps_around_witness :
  is_size (lexer_position Sample.second_of_ab)
  /\ is_size (size_modulus - 1)
  /\ lexer_peek (Some Sample.second_of_ab) (size_modulus - 1) = "a"%char.
Proof.
  assert (Hp : is_size (lexer_position Sample.second_of_ab))
    by (unfold is_size; vm_compute; split; [discriminate | reflexivity]).
  assert (Hk : is_size (size_modulus - 1))
    by (unfold is_size; vm_compute; split; [discriminate | reflexivity]).
  split; [exact Hp |]. split; [exact Hk |].
  refine (proj2 (peek_wraps_around Sample.second_of_ab (size_modulus - 1)
                   Hp Hk) _).
  vm_compute. discriminate.
Defined.


(** ** Inputs on which a sentence of the specification fails as stated *)

(** On a blank and a letter, the matchers of both rules succeed at
    position 0, yet the token returned is not the token of the first
    rule: that one is ignorable and is discarded, and the call returns
    the token of the second rule for the letter at column 2. *)
Lemma ignorable_first_match_not_returned :
  fst (fst (attempt Sample.matcher_code Sample.blank_x token_zero 0 1 1 0))
  = true
  /\ fst (fst (attempt Sample.matcher_code Sample.blank_x token_zero 0 1 1 1))
     = true
  /\ exists (t : token_t) (l' : option Sample.lexer),
      Sample.next_token 4 (Some Sample.blank_x) = Some (t, l')
      /\ token_kind t = Sample.TOKEN_CHAR
      /\ token_column t = 2
      /\ t <> token_copy
                (snd (run_action Sample.action_code
                        (rule_at Sample.blank_x 0)
                        (snd (fst (attempt Sample.matcher_code Sample.blank_x
                                     token_zero 0 1 1 0)))
                        (snd (attempt Sample.matcher_code Sample.blank_x
                                token_zero 0 1 1 0)))).
Proof.
  split; [vm_compute; reflexivity |].
  split; [vm_compute; reflexivity |].
  eexists _, _.
  split; [vm_compute; reflexivity |].
  split; [reflexivity |]. split; [reflexivity |].
  vm_compute. discriminate.
Qed.

(** With the cursor on the second character of [ab], the place
    [2^w - 1] characters ahead is out of range, yet [lexer_peek] returns
    the first character and not the sentinel. *)
Lemma peek_overflow_not_sentinel :
  is_size (size_modulus - 1)
  /\ lexer_source_length Sample.second_of_ab
     <= lexer_position Sample.second_of_ab + (size_modulus - 1)
  /\ lexer_peek (Some Sample.second_of_ab) (size_modulus - 1) = "a"%char
  /\ lexer_peek (Some Sample.second_of_ab) (size_modulus - 1) <> NUL.
Proof.
  split; [unfold is_size; vm_compute; split; [discriminate | reflexivity] |].
  split; [vm_compute; discriminate |].
  split; [vm_compute; reflexivity |].
  vm_compute. discriminate.
Qed.

(** * Further properties of the engine *)

(** ** The position tracker *)

Section TrackerProperties.

Context {Ctx : Type}.

Local Abbreviation lexer := (lexer_t Ctx).

Lemma moved_forward_refl (lx : lexer) :
  lexer_position lx <= lexer_source_length lx -> moved_forward lx lx.
Proof.
  intros H. unfold moved_forward. repeat split; lia.
Qed.

Lemma moved_forward_trans (a b c : lexer) :
  moved_forward a b -> moved_forward b c -> moved_forward a c.
Proof.
  unfold moved_forward. intros (Hr & Hl & Hp) (Hr' & Hl' & Hp').
  repeat split; try congruence; lia.
Qed.

Lemma moved_forward_in_buffer (a b : lexer) :
  in_buffer a -> moved_forward a b -> in_buffer b.
Proof.
  unfold in_buffer, moved_forward. intros (Hp & Hs) (_ & Hl & Hq).
  rewrite Hl. lia.
Qed.

(** One call of [lexer_advance] with the cursor within the buffer. *)
Lemma advance_step (lx : lexer) :
  in_buffer lx ->
  exists lx' : lexer,
    lexer_advance (Some lx) = Some lx'
    /\ lexer_position lx'
       = Z.min (lexer_position lx + 1) (lexer_source_length lx)
    /\ lexer_source lx' = lexer_source lx
    /\ lexer_source_length lx' = lexer_source_length lx
    /\ lexer_rules lx' = lexer_rules lx
    /\ lexer_filename lx' = lexer_filename lx
    /\ lexer_context lx' = lexer_context lx
    /\ lexer_flags lx' = lexer_flags lx.
Proof.
  intros ((H0 & H1) & H2). unfold lexer_advance.
  destruct (lexer_source_length lx <=? lexer_position lx) eqn:Heof.
  - apply Z.leb_le in Heof. exists lx. repeat split. lia.
  - apply Z.leb_gt in Heof.
    assert (Hw : wrap_size (lexer_position lx + 1) = lexer_position lx + 1)
      by (apply wrap_size_small; unfold is_size; lia).
    destruct (Ascii.eqb _ _); eexists; (split; [reflexivity |]);
      cbn; rewrite Hw; repeat split; lia.
Qed.

Lemma advance_times_spec (lx : lexer) (n : nat) :
  in_buffer lx ->
  exists lx' : lexer,
    advance_times n (Some lx) = Some lx'
    /\ lexer_position lx'
       = Z.min (lexer_position lx + Z.of_nat n) (lexer_source_length lx)
    /\ lexer_source lx' = lexer_source lx
    /\ lexer_source_length lx' = lexer_source_length lx
    /\ lexer_rules lx' = lexer_rules lx
    /\ lexer_filename lx' = lexer_filename lx
    /\ lexer_context lx' = lexer_context lx
    /\ lexer_flags lx' = lexer_flags lx.
Proof.
  revert lx. induction n as [| n IH]; intros lx Hin.
  - exists lx. cbn [advance_times]. repeat split.
    destruct Hin as ((H0 & H1) & H2). lia.
  - destruct (advance_step lx Hin)
      as (lx1 & Hadv & Hp & Hs & Hl & Hr & Hf & Hc & Hg).
    assert (Hin1 : in_buffer lx1).
    { destruct Hin as ((H0 & H1) & H2). unfold in_buffer.
      rewrite Hl, Hp. lia. }
    destruct (IH lx1 Hin1)
      as (lx' & Hadv' & Hp' & Hs' & Hl' & Hr' & Hf' & Hc' & Hg').
    exists lx'. cbn [advance_times]. rewrite Hadv.
    split; [exact Hadv' |].
    destruct Hin as ((H0 & H1) & H2).
    repeat split; try congruence.
    rewrite Hp', Hp, Hl. lia.
Qed.

(** X1: with the cursor within the buffer, [n] calls of [lexer_advance]
    move the position by [n] but never past the length of the buffer,
    where further calls do nothing; the buffer, its length, the rules,
    the file name, the context and the flags are untouched. *)
Theorem advance_times_stops_at_end (lx : lexer) (n : nat) :
  in_buffer lx ->
  exists lx' : lexer,
    advance_times n (Some lx) = Some lx'
    /\ lexer_position lx'
       = Z.min (lexer_position lx + Z.of_nat n) (lexer_source_length lx)
    /\ lexer_source lx' = lexer_source lx
    /\ lexer_source_length lx' = lexer_source_length lx
    /\ lexer_rules lx' = lexer_rules lx
    /\ lexer_filename lx' = lexer_filename lx
    /\ lexer_context lx' = lexer_context lx
    /\ lexer_flags lx' = lexer_flags lx.
Proof.
  apply advance_times_spec.
Qed.

Lemma count_newlines_bounds (src : cptr) (n : nat) :
  forall p : Z, 0 <= count_newlines src p n <= Z.of_nat n.
Proof.
  induction n as [| n IH]; intros p; cbn [count_newlines].
  - lia.
  - specialize (IH (p + 1)). destruct (Ascii.eqb _ _); lia.
Qed.

(** X2: over [n] characters that are within the buffer, [lexer_advance]
    adds to the line the number of newlines among them; the column
    grows by [n] when there is none and is 1 when the last of them is a
    newline (lines and columns being far from the [size_t] limit). *)
Theorem advance_times_line_column (n : nat) :
  forall lx : lexer,
    in_buffer lx ->
    lexer_position lx + Z.of_nat n <= lexer_source_length lx ->
    0 <= lexer_line lx -> lexer_line lx + Z.of_nat n < size_modulus ->
    0 <= lexer_column lx -> lexer_column lx + Z.of_nat n < size_modulus ->
    exists lx' : lexer,
      advance_times n (Some lx) = Some lx'
      /\ lexer_position lx' = lexer_position lx + Z.of_nat n
      /\ lexer_line lx'
         = lexer_line lx
           + count_newlines (lexer_source lx) (lexer_position lx) n
      /\ (count_newlines (lexer_source lx) (lexer_position lx) n = 0 ->
          lexer_column lx' = lexer_column lx + Z.of_nat n)
      /\ ((0 < n)%nat ->
          load (lexer_source lx) (lexer_position lx + Z.of_nat n - 1) = newline ->
          lexer_column lx' = 1).
Proof.
  induction n as [| n IH]; intros lx Hin Hlen Hl0 Hl1 Hc0 Hc1.
  - exists lx. cbn [advance_times count_newlines].
    repeat split; try lia.
  - destruct Hin as ((H0 & H1) & H2).
    assert (Hlt : lexer_position lx < lexer_source_length lx) by lia.
    assert (Hstep :
      exists lx1 : lexer,
        lexer_advance (Some lx) = Some lx1
        /\ lexer_position lx1 = lexer_position lx + 1
        /\ lexer_source lx1 = lexer_source lx
        /\ lexer_source_length lx1 = lexer_source_length lx
        /\ lexer_line lx1
           = lexer_line lx
             + (if Ascii.eqb (load (lexer_source lx) (lexer_position lx))
                     newline then 1 else 0)
        /\ lexer_column lx1
           = (if Ascii.eqb (load (lexer_source lx) (lexer_position lx))
                   newline then 1 else lexer_column lx + 1)).
    { unfold lexer_advance. apply Z.leb_gt in Hlt. rewrite Hlt.
      rewrite (wrap_size_small (lexer_position lx + 1))
        by (unfold is_size; lia).
      destruct (Ascii.eqb _ _); eexists; (split; [reflexivity |]); cbn;
        rewrite ?wrap_size_small by (unfold is_size; lia);
        repeat split; lia. }
    destruct Hstep as (lx1 & Hadv & Hp1 & Hs1 & Hlen1 & Hline1 & Hcol1).
    pose proof (count_newlines_bounds (lexer_source lx) n
                  (lexer_position lx + 1)) as Hcount.
    destruct (IH lx1) as (lx' & Hadv' & Hp' & Hline' & Hcol' & Hlast').
    { unfold in_buffer. rewrite Hlen1, Hp1. lia. }
    { rewrite Hlen1, Hp1. lia. }
    { rewrite Hline1. destruct (Ascii.eqb _ _); lia. }
    { rewrite Hline1. destruct (Ascii.eqb _ _); lia. }
    { rewrite Hcol1. destruct (Ascii.eqb _ _); lia. }
    { rewrite Hcol1. destruct (Ascii.eqb _ _); lia. }
    exists lx'. cbn [advance_times count_newlines]. rewrite Hadv.
    rewrite Hs1, Hp1 in Hline', Hcol', Hlast'.
    split; [exact Hadv' |].
    split; [lia |].
    split; [rewrite Hline', Hline1; lia |].
    split.
    + intros Hzero.
      destruct (Ascii.eqb (load (lexer_source lx) (lexer_position lx)) newline).
      * lia.
      * rewrite Hcol' by lia. rewrite Hcol1. lia.
    + intros _ Hnl.
      destruct n as [| n'].
      * cbn [advance_times] in Hadv'. injection Hadv' as <-.
        replace (lexer_position lx + Z.of_nat 1 - 1) with (lexer_position lx)
          in Hnl by lia.
        rewrite Hcol1, Hnl. reflexivity.
      * apply Hlast'; [lia |].
        replace (lexer_position lx + 1 + Z.of_nat (S n') - 1)
          with (lexer_position lx + Z.of_nat (S (S n')) - 1) by lia.
        exact Hnl.
Qed.

(** ** Reading the source *)

(** X4: at the end of the input [lexer_current] and every lookahead
    that does not wrap around read the sentinel 0, which is in none of
    the character classes, and [lexer_advance] leaves the engine as it
    is. *)
Theorem end_of_input_reads_sentinel (lx : lexer) (k : Z) :
  lexer_is_eof (Some lx) = true ->
  0 <= k -> lexer_position lx + k < size_modulus -> 0 <= lexer_position lx ->
  lexer_current (Some lx) = NUL
  /\ lexer_peek (Some lx) k = NUL
  /\ lexer_advance (Some lx) = Some lx
  /\ lexer_is_space (lexer_current (Some lx)) = false
  /\ lexer_is_alnum (lexer_current (Some lx)) = false.
Proof.
  intros Heof Hk Hsum Hp. cbn [lexer_is_eof] in Heof.
  assert (Hcur : lexer_current (Some lx) = NUL).
  { unfold lexer_current. rewrite Heof. reflexivity. }
  split; [exact Hcur |].
  split.
  { unfold lexer_peek.
    rewrite wrap_size_small by (unfold is_size; lia).
    apply Z.leb_le in Heof.
    replace (lexer_source_length lx <=? lexer_position lx + k) with true
      by (symmetry; apply Z.leb_le; lia).
    reflexivity. }
  split.
  { unfold lexer_advance. rewrite Heof. reflexivity. }
  rewrite Hcur. split; reflexivity.
Qed.

Lemma load_ptr_add (p : cptr) (n : Z) : load (ptr_add p n) 0 = load p n.
Proof.
  destruct p as [| o off]; cbn [ptr_add load]; [reflexivity |].
  rewrite Z.add_0_r. reflexivity.
Qed.

(** X5: [lexer_get_lexeme] returns null when [start] is at or past the
    length of the buffer, whatever [length] is; for a [start] between
    the cursor and the end it returns a pointer to the character that
    [lexer_peek] reads at distance [start - position]. *)
Theorem get_lexeme_points_at_peek (lx : lexer) (start length : Z) :
  0 <= lexer_position lx -> lexer_source_length lx <= size_modulus ->
  (lexer_source_length lx <= start ->
   lexer_get_lexeme (Some lx) start length = NULL)
  /\ (lexer_position lx <= start < lexer_source_length lx ->
      lexer_get_lexeme (Some lx) start length
      = ptr_add (lexer_source lx) start
      /\ load (lexer_get_lexeme (Some lx) start length) 0
         = lexer_peek (Some lx) (start - lexer_position lx)).
Proof.
  intros Hp Hs. unfold lexer_get_lexeme, lexer_peek. split.
  - intros Hout. apply Z.leb_le in Hout. rewrite Hout. reflexivity.
  - intros [Hlo Hhi].
    replace (lexer_position lx + (start - lexer_position lx)) with start by lia.
    rewrite wrap_size_small by (unfold is_size; lia).
    apply Z.leb_gt in Hhi. rewrite Hhi.
    split; [reflexivity | apply load_ptr_add].
Qed.

(** X3: a lookahead of [k] that does not wrap around reads the
    character that [lexer_current] reads after [k] calls of
    [lexer_advance], the sentinel when these reach the end of the
    input. *)
Theorem peek_is_current_after_advances (lx : lexer) (k : nat) :
  in_buffer lx ->
  lexer_position lx + Z.of_nat k < size_modulus ->
  lexer_peek (Some lx) (Z.of_nat k)
  = lexer_current (advance_times k (Some lx)).
Proof.
  intros Hin Hsmall.
  destruct (advance_times_spec lx k Hin) as (lx' & Hadv & Hp & Hs & Hl & _).
  rewrite Hadv. unfold lexer_peek, lexer_current. rewrite Hl, Hp, Hs.
  destruct Hin as ((H0 & H1) & H2).
  rewrite wrap_size_small by (unfold is_size; lia).
  destruct (Z.le_gt_cases (lexer_source_length lx)
              (lexer_position lx + Z.of_nat k)) as [Hout | Hin'].
  - replace (Z.min _ _) with (lexer_source_length lx) by lia.
    rewrite Z.leb_refl.
    replace (_ <=? _) with true by (symmetry; apply Z.leb_le; lia).
    reflexivity.
  - replace (Z.min _ _) with (lexer_position lx + Z.of_nat k) by lia.
    reflexivity.
Qed.

(** *** C strings *)

Lemma get_skip_chars (n : nat) :
  forall (s : string) (k : nat),
    String.get k (skip_chars n s) = String.get (n + k) s.
Proof.
  induction n as [| n IH]; intros s k; cbn [skip_chars].
  - reflexivity.
  - destruct s as [| c r]; cbn [String.get Nat.add].
    + destruct k; reflexivity.
    + apply IH.
Qed.

Lemma strlen_chars_nonneg (s : string) : 0 <= strlen_chars s.
Proof.
  induction s as [| c r IH]; cbn [strlen_chars]; [lia |].
  destruct (Ascii.eqb c NUL); lia.
Qed.

(** Before its length a string has no zero; at its length it has one, or
    ends. *)
Lemma strlen_chars_spec (s : string) :
  forall k : nat,
    (Z.of_nat k < strlen_chars s ->
     exists c : ascii, String.get k s = Some c /\ c <> NUL)
    /\ (Z.of_nat k = strlen_chars s ->
        String.get k s = Some NUL \/ String.get k s = None).
Proof.
  induction s as [| c r IH]; intros k; cbn [strlen_chars].
  - split; [lia |]. intros _. right. destruct k; reflexivity.
  - destruct (Ascii.eqb c NUL) eqn:Hc.
    + split; [lia |]. intros Hk. assert (k = O) by lia. subst k.
      apply Ascii.eqb_eq in Hc. subst c. left. reflexivity.
    + pose proof (strlen_chars_nonneg r) as Hr.
      destruct k as [| k]; cbn [String.get].
      * split; [| lia]. intros _. exists c. split; [reflexivity |].
        apply Ascii.eqb_neq. exact Hc.
      * destruct (IH k) as [IH1 IH2]. split; intros Hk.
        -- apply IH1. lia.
        -- apply IH2. lia.
Qed.

Lemma load_before_strlen (o : cobject) (off i : Z) :
  0 <= off -> 0 <= i -> i < strlen (Ptr o off) -> load (Ptr o off) i <> NUL.
Proof.
  intros Hoff Hi Hlt. cbn [strlen] in Hlt. cbn [load].
  replace (off + i <? 0) with false by (symmetry; apply Z.ltb_ge; lia).
  destruct (strlen_chars_spec (skip_chars (Z.to_nat off) (object_chars o))
              (Z.to_nat i)) as [H _].
  destruct H as (c & Hget & Hc); [lia |].
  rewrite get_skip_chars in Hget.
  replace (Z.to_nat (off + i)) with (Z.to_nat off + Z.to_nat i)%nat by lia.
  rewrite Hget. exact Hc.
Qed.

(** X6: [lexer_create] and [lexer_reset] called with length 0 bind the
    engine to the C string at [source]: its length is that of the
    string.  For such an engine, wherever the cursor is, the current
    character is the sentinel 0 exactly when the engine is at the end
    of the input; so an engine made over the empty string is at the end
    from the start. *)
Theorem zero_length_binds_c_string (lx0 : lexer) (o : cobject) (off : Z)
    (uninit filename : cptr) (flags : Z) :
  0 <= off ->
  (exists lx : lexer,
      lexer_create true uninit (Ptr o off) 0 filename flags = Some lx
      /\ lexer_source lx = Ptr o off
      /\ lexer_source_length lx = strlen (Ptr o off))
  /\ (exists lx : lexer,
         lexer_reset (Some lx0) (Ptr o off) 0 filename = Some lx
         /\ lexer_source lx = Ptr o off
         /\ lexer_source_length lx = strlen (Ptr o off))
  /\ (forall lx : lexer,
         lexer_source lx = Ptr o off ->
         lexer_source_length lx = strlen (Ptr o off) ->
         0 <= lexer_position lx ->
         (lexer_current (Some lx) = NUL <-> lexer_is_eof (Some lx) = true)).
Proof.
  intros Hoff.
  split; [eexists; repeat split |].
  split; [eexists; repeat split |].
  intros lx Hsrc Hlen Hpos. unfold lexer_current, lexer_is_eof.
  destruct (lexer_source_length lx <=? lexer_position lx) eqn:Heof.
  - split; reflexivity.
  - apply Z.leb_gt in Heof. split; [| discriminate].
    intros Hnul. exfalso.
    rewrite Hsrc in Hnul. rewrite Hlen in Heof.
    exact (load_before_strlen o off _ Hoff Hpos Heof Hnul).
Qed.

(** ** Registration of rules *)

Lemma add_rules_null (rs : list (fnptr * fnptr)) :
  lexer_add_rules (@None lexer) rs = None.
Proof.
  induction rs as [| r rs IH]; [reflexivity | exact IH].
Qed.

(** X7: registering rules one after the other appends to the table, in
    the order of the calls, exactly those whose matcher is not null (a
    call with a null matcher returns false and changes nothing); the
    rules registered before keep their places and the rest of the
    engine is untouched.  On a null engine nothing is registered. *)
Theorem add_rules_appends_in_order (rs : list (fnptr * fnptr)) :
  forall lx : lexer,
    lexer_add_rules (Some lx) rs
    = Some (mk_lexer (lexer_source lx) (lexer_source_length lx)
              (lexer_position lx) (lexer_line lx) (lexer_column lx)
              (lexer_filename lx)
              (lexer_rules lx
               ++ map (fun r => mk_rule (fst r) (snd r))
                    (filter (fun r => negb (fn_is_null (fst r))) rs))
              (lexer_error_message lx) (lexer_context lx) (lexer_flags lx))
    /\ (forall m a : fnptr,
           fst (lexer_add_rule (Some lx) m a) = negb (fn_is_null m))
    /\ lexer_add_rules (@None lexer) rs = None.
Proof.
  induction rs as [| [m a] rs IH]; intros lx.
  - split; [| split; [| reflexivity]].
    + cbn. rewrite app_nil_r. destruct lx; reflexivity.
    + intros m a. cbn. destruct (fn_is_null m); reflexivity.
  - split; [| split; [| apply add_rules_null]].
    + unfold lexer_add_rules. cbn [fold_left fst snd lexer_add_rule filter].
      destruct (fn_is_null m); cbn [snd negb].
      * apply IH.
      * destruct (IH (mk_lexer (lexer_source lx) (lexer_source_length lx)
                        (lexer_position lx) (lexer_line lx) (lexer_column lx)
                        (lexer_filename lx)
                        (da_append (lexer_rules lx) (mk_rule m a))
                        (lexer_error_message lx) (lexer_context lx)
                        (lexer_flags lx))) as [H _].
        unfold lexer_add_rules in H. rewrite H. cbn.
        unfold da_append. rewrite <- app_assoc. reflexivity.
    + intros m' a'. cbn. destruct (fn_is_null m'); reflexivity.
Qed.

End TrackerProperties.

(** ** Character classes *)

(** X8: the classes of [lexer_is_space], [lexer_is_alpha] and
    [lexer_is_digit] are pairwise disjoint, [lexer_is_alnum] is the
    union of the last two, and the sentinel 0 is in none of them. *)
Theorem character_classes_disjoint (c : ascii) :
  lexer_is_space c && lexer_is_alpha c = false
  /\ lexer_is_space c && lexer_is_digit c = false
  /\ lexer_is_alpha c && lexer_is_digit c = false
  /\ lexer_is_alnum c = lexer_is_alpha c || lexer_is_digit c
  /\ (lexer_is_space c || lexer_is_alnum c) && Ascii.eqb c NUL = false.
Proof.
  destruct c as [[] [] [] [] [] [] [] []]; repeat split.
Qed.

(** ** Storage of the rule table *)



(** ** Scanning with disciplined rules *)

Section ScanProperties.

Context {Ctx : Type}.
Variable matcher_code :
  fnptr -> lexer_t Ctx -> token_t -> bool * lexer_t Ctx * token_t.
Variable action_code : fnptr -> lexer_t Ctx -> token_t -> lexer_t Ctx * token_t.

Local Abbreviation lexer := (lexer_t Ctx).
Local Abbreviation scan_rules := (for_rules matcher_code action_code).
Local Abbreviation scan := (while_loop matcher_code action_code).
Local Abbreviation next_token := (lexer_next_token matcher_code action_code).

(** *** The file name of the working token *)

Lemma run_action_filename (rule : lexer_rule_t) (lx : lexer) (t : token_t) :
  keeps_token_filename matcher_code action_code ->
  token_filename (snd (run_action action_code rule lx t)) = token_filename t.
Proof.
  intros [_ Ha]. unfold run_action.
  destruct (fn_is_null (action rule)); [reflexivity | apply Ha].
Qed.

Lemma for_rules_filename (fuel : nat) :
  keeps_token_filename matcher_code action_code ->
  forall (reset : bool) (lx : lexer) (token : token_t) (sp sl sc : Z) (i : nat)
         (o : for_outcome),
    scan_rules fuel reset lx token sp sl sc i = Some o ->
    match o with
    | ForReturn result _ => token_filename result = token_filename token
    | ForExit _ _ token' => token_filename token' = token_filename token
    end.
Proof.
  intros Hkeep.
  induction fuel as [| fuel IH]; intros reset lx token sp sl sc i o H.
  - discriminate.
  - cbn [for_rules] in H.
    destruct (i <? List.length (lexer_rules lx))%nat.
    + pose proof (proj1 Hkeep
                    (matcher (nth (if reset then O else i) (lexer_rules lx)
                                null_rule))
                    lx
                    (set_token_start token sl sc
                       (ptr_add (lexer_source lx) sp))) as Hm.
      destruct (matcher_code _ _ _) as [[matched lx1] token1].
      cbn [snd] in Hm. cbn [set_token_start token_filename] in Hm.
      destruct matched.
      * pose proof (run_action_filename
                      (nth (if reset then O else i) (lexer_rules lx) null_rule)
                      lx1 token1 Hkeep) as Ha.
        destruct (run_action _ _ _ _) as [lx2 token2]. cbn [snd] in Ha.
        destruct (is_discarded lx2 token2); injection H as <-;
          cbn [create_token token_filename]; congruence.
      * apply IH in H. destruct o; congruence.
    + injection H as <-. reflexivity.
Qed.

Lemma while_loop_filename (fuel : nat) :
  keeps_token_filename matcher_code action_code ->
  forall (lx : lexer) (token : token_t) (result : token_t) (lx' : lexer),
    scan fuel lx token = Some (Returned result lx') ->
    token_filename result = token_filename token.
Proof.
  intros Hkeep.
  induction fuel as [| fuel IH]; intros lx token result lx' H.
  - discriminate.
  - rewrite while_loop_pass in H.
    destruct (scan_rules fuel _ _ _ _ _ _ _) as [[r l | r l t] |] eqn:Hf;
      cbn [after_pass] in H; try discriminate.
    + injection H as <- <-.
      exact (for_rules_filename _ Hkeep _ _ _ _ _ _ _ _ Hf).
    + pose proof (for_rules_filename _ Hkeep _ _ _ _ _ _ _ _ Hf) as Ht.
      cbn in Ht.
      destruct (negb r); [discriminate |].
      apply IH in H. congruence.
Qed.

(** X10: the engine stamps the file name on the EOF and ERROR tokens it
    makes, and never on the working token: when no matcher or action
    writes the file name of the token, every token that
    [lexer_next_token] returns from a rule has a null file name. *)
Theorem matched_tokens_have_no_filename (fuel : nat) (l l' : option lexer)
    (result : token_t) :
  keeps_token_filename matcher_code action_code ->
  next_token fuel l = Some (result, l') ->
  token_filename result = NULL
  \/ (exists lxp : lexer,
         (result = eof_token lxp \/ result = error_token lxp)
         /\ token_filename result = lexer_filename lxp).
Proof.
  intros Hkeep H. destruct l as [lx |]; cbn [lexer_next_token] in H.
  - destruct (lexer_is_eof (Some lx)).
    + injection H as <- <-. right. exists lx. split; [left |]; reflexivity.
    + destruct (scan fuel lx token_zero) as [[r lx2 | lxp t] |] eqn:Hs;
        cbn [conclude] in H; [| | discriminate].
      * injection H as <- <-. left.
        exact (while_loop_filename _ Hkeep _ _ _ _ Hs).
      * unfold no_rule_matched in H.
        destruct (lexer_is_eof (Some lxp)); injection H as <- <-;
          right; exists lxp; (split; [| reflexivity]); [left | right];
          reflexivity.
  - injection H as <- <-. left. reflexivity.
Qed.

(** *** The cursor *)

Lemma set_location_forward (lx lx1 : lexer) (sl sc : Z) :
  in_buffer lx -> moved_forward lx lx1 ->
  in_buffer (set_location lx1 (lexer_position lx) sl sc)
  /\ lexer_rules (set_location lx1 (lexer_position lx) sl sc) = lexer_rules lx
  /\ lexer_source_length (set_location lx1 (lexer_position lx) sl sc)
     = lexer_source_length lx.
Proof.
  unfold in_buffer, moved_forward. intros (Hp & Hs) (Hr & Hl & Hq).
  cbn. rewrite Hl. repeat split; try lia; assumption.
Qed.

Lemma run_action_forward (rule : lexer_rule_t) (lx : lexer) (t : token_t) :
  forward_code matcher_code action_code ->
  in_buffer lx ->
  moved_forward lx (fst (run_action action_code rule lx t)).
Proof.
  intros [_ Ha] Hin. unfold run_action.
  destruct (fn_is_null (action rule)); [| apply Ha; exact Hin].
  cbn [fst]. apply moved_forward_refl. destruct Hin as ((_ & H) & _). exact H.
Qed.

(** What a pass from an engine within its buffer leaves. *)
Lemma for_rules_forward (fuel : nat) :
  forward_code matcher_code action_code ->
  forall (lx : lexer) (token : token_t) (sl sc : Z) (i : nat)
         (o : for_outcome),
    in_buffer lx ->
    scan_rules fuel false lx token (lexer_position lx) sl sc i = Some o ->
    match o with
    | ForReturn _ lx2 =>
        moved_forward lx lx2
        /\ (matches_consume matcher_code action_code ->
            lexer_position lx < lexer_position lx2)
    | ForExit reset lx2 _ =>
        moved_forward lx lx2
        /\ (reset = true ->
            discards_consume matcher_code action_code ->
            lexer_position lx < lexer_position lx2)
    end.
Proof.
  intros Hcode.
  induction fuel as [| fuel IH]; intros lx token sl sc i o Hin H.
  - discriminate.
  - cbn [for_rules] in H.
    destruct (i <? List.length (lexer_rules lx))%nat.
    + pose proof (proj1 Hcode (matcher (nth i (lexer_rules lx) null_rule)) lx
                    (set_token_start token sl sc
                       (ptr_add (lexer_source lx) (lexer_position lx))) Hin)
        as Hm.
      destruct (matcher_code _ _ _) as [[matched lx1] token1] eqn:Hmatch.
      cbn [fst snd] in Hm.
      pose proof (moved_forward_in_buffer _ _ Hin Hm) as Hin1.
      destruct matched.
      * pose proof (run_action_forward (nth i (lexer_rules lx) null_rule)
                      lx1 token1 Hcode Hin1) as Ha.
        destruct (run_action _ _ _ _) as [lx2 token2] eqn:Hact.
        cbn [fst] in Ha.
        pose proof (moved_forward_trans _ _ _ Hm Ha) as Hfwd.
        destruct (is_discarded lx2 token2) eqn:Hdisc; injection H as <-.
        -- split; [exact Hfwd |]. intros _ Hcons.
           exact (Hcons _ _ _ _ _ _ _ Hin Hmatch Hact Hdisc).
        -- split; [exact Hfwd |]. intros Hcons.
           exact (Hcons _ _ _ _ _ _ _ Hin Hmatch Hact).
      * destruct (set_location_forward lx lx1 sl sc Hin Hm)
          as (Hinr & Hrr & Hlr).
        specialize (IH (set_location lx1 (lexer_position lx) sl sc)
                      token1 sl sc (S i) o Hinr H).
        assert (Hback : moved_forward lx
                          (set_location lx1 (lexer_position lx) sl sc)).
        { unfold moved_forward. rewrite Hrr, Hlr. cbn.
          destruct Hin as ((_ & Hle) & _). repeat split; lia. }
        destruct o as [r lx2 | r lx2 t]; destruct IH as [Hfwd Hpos];
          (split; [exact (moved_forward_trans _ _ _ Hback Hfwd) | exact Hpos]).
    + injection H as <-. split.
      * apply moved_forward_refl. destruct Hin as ((_ & Hle) & _). exact Hle.
      * discriminate.
Qed.

Lemma while_loop_forward (fuel : nat) :
  forward_code matcher_code action_code ->
  forall (lx : lexer) (token : token_t) (o : while_outcome),
    in_buffer lx ->
    scan fuel lx token = Some o ->
    match o with
    | Returned _ lx2 =>
        moved_forward lx lx2
        /\ (matches_consume matcher_code action_code ->
            lexer_position lx < lexer_position lx2)
    | NoMatch lx2 _ => moved_forward lx lx2
    end.
Proof.
  intros Hcode.
  induction fuel as [| fuel IH]; intros lx token o Hin H.
  - discriminate.
  - rewrite while_loop_pass in H.
    destruct (scan_rules fuel _ _ _ _ _ _ _) as [fo |] eqn:Hf;
      [| discriminate].
    pose proof (for_rules_forward _ Hcode _ _ _ _ _ _ Hin Hf) as Hpass.
    destruct fo as [r l | r l t]; cbn [after_pass] in H.
    + injection H as <-. exact Hpass.
    + destruct Hpass as [Hfwd _].
      destruct (negb r); [injection H as <-; exact Hfwd |].
      pose proof (moved_forward_in_buffer _ _ Hin Hfwd) as Hinl.
      specialize (IH _ _ _ Hinl H).
      destruct o as [r' lx2 | lx2 t'].
      * destruct IH as [Hfwd' Hpos]. split.
        -- exact (moved_forward_trans _ _ _ Hfwd Hfwd').
        -- intros Hcons. specialize (Hpos Hcons).
           destruct Hfwd as (_ & _ & Hle). lia.
      * exact (moved_forward_trans _ _ _ Hfwd IH).
Qed.

Lemma no_rule_matched_forward (lx : lexer) :
  in_buffer lx ->
  exists lx' : lexer,
    snd (no_rule_matched lx) = Some lx'
    /\ moved_forward lx lx'
    /\ (lexer_is_eof (Some lx) = false ->
        lexer_position lx < lexer_position lx').
Proof.
  intros Hin. unfold no_rule_matched.
  destruct (lexer_is_eof (Some lx)) eqn:Heof; cbn [snd].
  - exists lx. split; [reflexivity |]. split; [| discriminate].
    apply moved_forward_refl. destruct Hin as ((_ & Hle) & _). exact Hle.
  - cbn [lexer_is_eof] in Heof. apply Z.leb_gt in Heof.
    destruct (advance_step lx Hin) as (lx' & Hadv & Hp & _ & Hl & Hr & _).
    exists lx'. split; [exact Hadv |].
    unfold moved_forward. rewrite Hr, Hl, Hp.
    repeat split; lia.
Qed.

Lemma next_token_forward (fuel : nat) (lx : lexer)
    (result : token_t) (l' : option lexer) :
  forward_code matcher_code action_code ->
  in_buffer lx ->
  next_token fuel (Some lx) = Some (result, l') ->
  exists lx' : lexer, l' = Some lx' /\ moved_forward lx lx'.
Proof.
  intros Hcode Hin H. cbn [lexer_next_token] in H.
  destruct (lexer_is_eof (Some lx)).
  - injection H as <- <-. exists lx. split; [reflexivity |].
    apply moved_forward_refl. destruct Hin as ((_ & Hle) & _). exact Hle.
  - destruct (scan fuel lx token_zero) as [[r lx2 | lxp t] |] eqn:Hs;
      cbn [conclude] in H; [| | discriminate].
    + injection H as <- <-. exists lx2. split; [reflexivity |].
      exact (proj1 (while_loop_forward _ Hcode _ _ _ Hin Hs)).
    + pose proof (while_loop_forward _ Hcode _ _ _ Hin Hs) as Hfwd.
      cbn in Hfwd.
      destruct (no_rule_matched_forward lxp
                  (moved_forward_in_buffer _ _ Hin Hfwd))
        as (lx' & Hsnd & Hfwd' & _).
      destruct (no_rule_matched lxp) as [t' l2]. cbn [snd] in Hsnd.
      injection H as <- <-. exists lx'. split; [exact Hsnd |].
      exact (moved_forward_trans _ _ _ Hfwd Hfwd').
Qed.

(** X11: when matchers and actions only move the cursor forward within
    the buffer and leave the rules and the length alone, so does
    [lexer_next_token]: the engine it leaves has the same rules and
    length, and a position that is not before the one it started from
    and not past the end. *)
Theorem next_token_moves_forward (fuel : nat) (lx : lexer)
    (result : token_t) (l' : option lexer) :
  forward_code matcher_code action_code ->
  in_buffer lx ->
  next_token fuel (Some lx) = Some (result, l') ->
  exists lx' : lexer, l' = Some lx' /\ moved_forward lx lx'.
Proof.
  apply next_token_forward.
Qed.

Lemma next_token_advances (fuel : nat) (lx : lexer)
    (result : token_t) (l' : option lexer) :
  forward_code matcher_code action_code ->
  matches_consume matcher_code action_code ->
  in_buffer lx ->
  lexer_is_eof (Some lx) = false ->
  next_token fuel (Some lx) = Some (result, l') ->
  exists lx' : lexer,
    l' = Some lx' /\ lexer_position lx < lexer_position lx'.
Proof.
  intros Hcode Hcons Hin Heof H. cbn [lexer_next_token] in H.
  rewrite Heof in H.
  destruct (scan fuel lx token_zero) as [[r lx2 | lxp t] |] eqn:Hs;
    cbn [conclude] in H; [| | discriminate].
  - injection H as <- <-. exists lx2. split; [reflexivity |].
    exact (proj2 (while_loop_forward _ Hcode _ _ _ Hin Hs) Hcons).
  - pose proof (while_loop_forward _ Hcode _ _ _ Hin Hs) as Hfwd.
    cbn in Hfwd.
    destruct (no_rule_matched_forward lxp
                (moved_forward_in_buffer _ _ Hin Hfwd))
      as (lx' & Hsnd & Hfwd' & Hpos).
    destruct (no_rule_matched lxp) as [t' l2]. cbn [snd] in Hsnd.
    injection H as <- <-. exists lx'. split; [exact Hsnd |].
    destruct Hfwd as (_ & Hl & Hp). destruct Hfwd' as (_ & _ & Hp').
    cbn [lexer_is_eof] in Heof. apply Z.leb_gt in Heof.
    destruct (lexer_is_eof (Some lxp)) eqn:Heofp.
    + cbn [lexer_is_eof] in Heofp. apply Z.leb_le in Heofp. lia.
    + specialize (Hpos eq_refl). lia.
Qed.

(** X13: when, moreover, every match consumes input, a call of
    [lexer_next_token] on an engine that is not at the end of the input
    leaves the position strictly further: a matched token has consumed
    input, an ERROR token has consumed one character, and an EOF token
    comes only after discarded tokens that have. *)
Theorem next_token_progress (fuel : nat) (lx : lexer)
    (result : token_t) (l' : option lexer) :
  forward_code matcher_code action_code ->
  matches_consume matcher_code action_code ->
  in_buffer lx ->
  lexer_is_eof (Some lx) = false ->
  next_token fuel (Some lx) = Some (result, l') ->
  exists lx' : lexer,
    l' = Some lx' /\ lexer_position lx < lexer_position lx'.
Proof.
  apply next_token_advances.
Qed.

(** *** Termination *)

(** A pass ends within one attempt per rule. *)
Lemma for_rules_total (fuel : nat) :
  forward_code matcher_code action_code ->
  forall (lx : lexer) (token : token_t) (sl sc : Z) (i : nat),
    in_buffer lx ->
    (List.length (lexer_rules lx) - i < fuel)%nat ->
    exists o : for_outcome,
      scan_rules fuel false lx token (lexer_position lx) sl sc i = Some o.
Proof.
  intros Hcode.
  induction fuel as [| fuel IH]; intros lx token sl sc i Hin Hfuel.
  - lia.
  - cbn [for_rules].
    destruct (i <? List.length (lexer_rules lx))%nat eqn:Hi;
      [| eexists; reflexivity].
    apply Nat.ltb_lt in Hi.
    pose proof (proj1 Hcode (matcher (nth i (lexer_rules lx) null_rule)) lx
                  (set_token_start token sl sc
                     (ptr_add (lexer_source lx) (lexer_position lx))) Hin)
      as Hm.
    destruct (matcher_code _ _ _) as [[matched lx1] token1].
    cbn [fst snd] in Hm.
    destruct matched.
    + destruct (run_action _ _ _ _) as [lx2 token2].
      destruct (is_discarded lx2 token2); eexists; reflexivity.
    + destruct (set_location_forward lx lx1 sl sc Hin Hm) as (Hinr & Hrr & _).
      pose proof (IH (set_location lx1 (lexer_position lx) sl sc)
                    token1 sl sc (S i) Hinr) as Hnext.
      cbn [set_location lexer_position] in Hnext.
      apply Hnext. rewrite Hrr. lia.
Qed.

Lemma while_loop_total (m : nat) :
  forward_code matcher_code action_code ->
  discards_consume matcher_code action_code ->
  forall (lx : lexer) (token : token_t) (fuel : nat),
    in_buffer lx ->
    lexer_source_length lx - lexer_position lx <= Z.of_nat m ->
    (List.length (lexer_rules lx) + m + 2 <= fuel)%nat ->
    exists o : while_outcome, scan fuel lx token = Some o.
Proof.
  intros Hcode Hcons.
  induction m as [| m IH]; intros lx token fuel Hin Hrem Hfuel;
    (destruct fuel as [| fuel]; [lia |]);
    rewrite while_loop_pass;
    (destruct (for_rules_total fuel Hcode lx token (lexer_line lx)
                 (lexer_column lx) O Hin) as [fo Hf]; [lia |]);
    rewrite Hf;
    pose proof (for_rules_forward _ Hcode _ _ _ _ _ _ Hin Hf) as Hpass;
    (destruct fo as [r l | r l t]; cbn [after_pass];
     [eexists; reflexivity |]);
    (destruct r; cbn [negb]; [| eexists; reflexivity]);
    destruct Hpass as [Hfwd Hpos]; specialize (Hpos eq_refl Hcons);
    pose proof (moved_forward_in_buffer _ _ Hin Hfwd) as Hinl;
    destruct Hfwd as (Hr & Hl & Hp).
  - lia.
  - apply IH; [exact Hinl | lia | rewrite Hr; lia].
Qed.

Lemma next_token_returns (fuel : nat) (lx : lexer) :
  forward_code matcher_code action_code ->
  discards_consume matcher_code action_code ->
  in_buffer lx ->
  (List.length (lexer_rules lx)
   + Z.to_nat (lexer_source_length lx - lexer_position lx) + 2 <= fuel)%nat ->
  exists (result : token_t) (lx' : lexer),
    next_token fuel (Some lx) = Some (result, Some lx').
Proof.
  intros Hcode Hcons Hin Hfuel. cbn [lexer_next_token].
  destruct (lexer_is_eof (Some lx)); [eexists _, _; reflexivity |].
  destruct (while_loop_total
              (Z.to_nat (lexer_source_length lx - lexer_position lx))
              Hcode Hcons lx token_zero fuel Hin) as [o Ho];
    [destruct Hin as ((_ & Hle) & _); lia | exact Hfuel |].
  rewrite Ho.
  pose proof (while_loop_forward _ Hcode _ _ _ Hin Ho) as Hfwd.
  destruct o as [r lx2 | lxp t]; cbn [conclude].
  - eexists _, _. reflexivity.
  - cbn in Hfwd.
    destruct (no_rule_matched_forward lxp
                (moved_forward_in_buffer _ _ Hin Hfwd))
      as (lx' & Hsnd & _).
    destruct (no_rule_matched lxp) as [t' l2]. cbn [snd] in Hsnd. subst l2.
    eexists _, _. reflexivity.
Qed.

(** X12: when matchers and actions only move the cursor forward within
    the buffer and leave the rules and the length alone, and every
    match whose token is discarded as ignorable consumes input, a call
    of [lexer_next_token] returns: the loops end within one pass per
    remaining character, plus one, of one attempt per rule each. *)
Theorem next_token_terminates (fuel : nat) (lx : lexer) :
  forward_code matcher_code action_code ->
  discards_consume matcher_code action_code ->
  in_buffer lx ->
  (List.length (lexer_rules lx)
   + Z.to_nat (lexer_source_length lx - lexer_position lx) + 2 <= fuel)%nat ->
  exists (result : token_t) (lx' : lexer),
    next_token fuel (Some lx) = Some (result, Some lx').
Proof.
  apply next_token_returns.
Qed.

(** *** The location of a matched token *)

Lemma run_action_start (rule : lexer_rule_t) (lx : lexer) (t : token_t) :
  keeps_token_start matcher_code action_code ->
  token_line (snd (run_action action_code rule lx t)) = token_line t
  /\ token_column (snd (run_action action_code rule lx t)) = token_column t
  /\ token_lexeme (snd (run_action action_code rule lx t)) = token_lexeme t.
Proof.
  intros [_ Ha]. unfold run_action.
  destruct (fn_is_null (action rule)); [repeat split | apply Ha].
Qed.

Lemma for_rules_located (fuel : nat) :
  keeps_token_start matcher_code action_code ->
  forall (lx : lexer) (token : token_t) (i : nat) (result : token_t)
         (lx2 : lexer),
    scan_rules fuel false lx token
      (lexer_position lx) (lexer_line lx) (lexer_column lx) i
    = Some (ForReturn result lx2) ->
    located_token matcher_code action_code result (Some lx2).
Proof.
  intros Hkeep.
  induction fuel as [| fuel IH]; intros lx token i result lx2 H.
  - discriminate.
  - cbn [for_rules] in H.
    destruct (i <? List.length (lexer_rules lx))%nat; [| discriminate].
    pose proof (proj1 Hkeep (matcher (nth i (lexer_rules lx) null_rule)) lx
                  (set_token_start token (lexer_line lx) (lexer_column lx)
                     (ptr_add (lexer_source lx) (lexer_position lx))))
      as (Hl & Hc & Hx).
    destruct (matcher_code _ _ _) as [[matched lx1] token1] eqn:Hm.
    cbn [snd set_token_start token_line token_column token_lexeme]
      in Hl, Hc, Hx.
    destruct matched.
    + pose proof (run_action_start (nth i (lexer_rules lx) null_rule)
                    lx1 token1 Hkeep) as (Hl' & Hc' & Hx').
      destruct (run_action _ _ _ _) as [lxr tokenr] eqn:Ha.
      cbn [snd] in Hl', Hc', Hx'.
      destruct (is_discarded lxr tokenr); [discriminate |].
      injection H as <- <-.
      exists lx, token, i, lx1, lxr, token1, tokenr.
      repeat split; try assumption;
        cbn [token_copy create_token token_line token_column token_lexeme];
        congruence.
    + specialize (IH (set_location lx1 (lexer_position lx) (lexer_line lx)
                        (lexer_column lx)) token1 (S i) result lx2).
      cbn [set_location lexer_position lexer_line lexer_column] in IH.
      exact (IH H).
Qed.

Lemma while_loop_located (fuel : nat) :
  keeps_token_start matcher_code action_code ->
  forall (lx : lexer) (token : token_t) (result : token_t) (lx2 : lexer),
    scan fuel lx token = Some (Returned result lx2) ->
    located_token matcher_code action_code result (Some lx2).
Proof.
  intros Hkeep.
  induction fuel as [| fuel IH]; intros lx token result lx2 H.
  - discriminate.
  - rewrite while_loop_pass in H.
    destruct (scan_rules fuel _ _ _ _ _ _ _) as [[r l | r l t] |] eqn:Hf;
      cbn [after_pass] in H; try discriminate.
    + injection H as <- <-. exact (for_rules_located _ Hkeep _ _ _ _ _ Hf).
    + destruct (negb r); [discriminate |]. exact (IH _ _ _ _ H).
Qed.

(** X14: when no matcher or action writes the line, the column or the
    lexeme of the working token, every token that [lexer_next_token]
    returns from a rule carries the line and column the engine had, and
    points at the character the cursor was on, when the matcher of
    that rule was called: the place where the match began, not where it
    ended, and after any ignorable tokens discarded before it. *)
Theorem matched_token_location (fuel : nat) (l l' : option lexer)
    (result : token_t) :
  keeps_token_start matcher_code action_code ->
  next_token fuel l = Some (result, l') ->
  engine_eof_token result
  \/ engine_error_token result l'
  \/ located_token matcher_code action_code result l'.
Proof.
  intros Hkeep H.
  unfold engine_eof_token, engine_error_token.
  destruct l as [lx |]; cbn [lexer_next_token] in H.
  - destruct (lexer_is_eof (Some lx)).
    + injection H as <- <-. left. repeat split.
    + destruct (scan fuel lx token_zero) as [[r lx2 | lxp t] |] eqn:Hs;
        cbn [conclude] in H; [| | discriminate].
      * injection H as <- <-. right. right.
        exact (while_loop_located _ Hkeep _ _ _ _ Hs).
      * unfold no_rule_matched in H.
        destruct (lexer_is_eof (Some lxp)) eqn:Heof'.
        -- injection H as <- <-. left. repeat split.
        -- injection H as <- <-. right. left. exists lxp.
           cbn [lexer_is_eof] in Heof'. apply Z.leb_gt in Heof'.
           repeat split; [exact Heof' |].
           intros o off Hsrc Hpos.
           eapply error_token_in_buffer; eassumption.
  - injection H as <- <-. left. repeat split.
Qed.

(** *** KeepIgnorable *)

Lemma run_action_flags (rule : lexer_rule_t) (lx : lexer) (t : token_t) :
  keeps_engine_flags matcher_code action_code ->
  lexer_flags (fst (run_action action_code rule lx t)) = lexer_flags lx.
Proof.
  intros [_ Ha]. unfold run_action.
  destruct (fn_is_null (action rule)); [reflexivity | apply Ha].
Qed.

Lemma for_rules_keeps_ignorable (fuel : nat) :
  keeps_engine_flags matcher_code action_code ->
  forall (lx : lexer) (token : token_t) (sp sl sc : Z) (i : nat)
         (o : for_outcome),
    keeps_ignorable lx = true ->
    scan_rules fuel false lx token sp sl sc i = Some o ->
    match o with
    | ForReturn _ _ => True
    | ForExit reset _ _ => reset = false
    end.
Proof.
  intros Hkeep.
  induction fuel as [| fuel IH]; intros lx token sp sl sc i o Hflag H.
  - discriminate.
  - cbn [for_rules] in H.
    destruct (i <? List.length (lexer_rules lx))%nat.
    + pose proof (proj1 Hkeep (matcher (nth i (lexer_rules lx) null_rule)) lx
                    (set_token_start token sl sc
                       (ptr_add (lexer_source lx) sp))) as Hm.
      destruct (matcher_code _ _ _) as [[matched lx1] token1].
      cbn [fst snd] in Hm.
      destruct matched.
      * pose proof (run_action_flags (nth i (lexer_rules lx) null_rule)
                      lx1 token1 Hkeep) as Ha.
        destruct (run_action _ _ _ _) as [lx2 token2]. cbn [fst] in Ha.
        assert (Hk2 : keeps_ignorable lx2 = true)
          by (unfold keeps_ignorable in *; rewrite Ha, Hm; exact Hflag).
        unfold is_discarded in H. rewrite Hk2, andb_false_r in H.
        injection H as <-. exact I.
      * apply (IH _ _ _ _ _ _ _) in H; [exact H |].
        unfold keeps_ignorable in *. cbn [set_location lexer_flags].
        rewrite Hm. exact Hflag.
    + injection H as <-. reflexivity.
Qed.

(** *** Several calls *)

Lemma next_token_at_end (fuel : nat) (lx : lexer) :
  lexer_is_eof (Some lx) = true ->
  next_token fuel (Some lx) = Some (eof_token lx, Some lx).
Proof.
  intros Heof. unfold lexer_next_token. rewrite Heof. reflexivity.
Qed.

Lemma next_tokens_at_end (fuel n : nat) (lx : lexer) :
  lexer_is_eof (Some lx) = true ->
  next_tokens matcher_code action_code fuel n (Some lx)
  = Some (repeat (eof_token lx) n, Some lx).
Proof.
  intros Heof. induction n as [| n IH]; cbn [next_tokens repeat].
  - reflexivity.
  - rewrite (next_token_at_end _ _ Heof), IH. reflexivity.
Qed.

(** X15: with an empty rule table, [n] calls on an engine that has at
    least [n] characters left return [n] ERROR tokens of length 1 whose
    lexemes are the characters at the cursor and after it, one by one
    and in order, and leave the engine where [n] calls of
    [lexer_advance] leave it. *)
Theorem no_rules_error_run (n : nat) :
  forall (lx : lexer) (fuel : nat),
    lexer_rules lx = [] ->
    in_buffer lx ->
    lexer_position lx + Z.of_nat n <= lexer_source_length lx ->
    (2 <= fuel)%nat ->
    exists ts : list token_t,
      next_tokens matcher_code action_code fuel n (Some lx)
      = Some (ts, advance_times n (Some lx))
      /\ map token_kind ts = repeat INTERNAL_TOKEN_ERROR n
      /\ map token_length ts = repeat 1 n
      /\ map token_lexeme ts
         = map (fun k : nat =>
                  ptr_add (lexer_source lx) (lexer_position lx + Z.of_nat k))
             (seq 0 n).
Proof.
  induction n as [| n IH]; intros lx fuel Hrules Hin Hlen Hfuel.
  - exists []. repeat split.
  - destruct Hin as ((H0 & H1) & H2).
    assert (Hlt : lexer_position lx < lexer_source_length lx) by lia.
    destruct (advance_step lx (conj (conj H0 H1) H2))
      as (lx1 & Hadv & Hp & Hs & Hl & Hr & _).
    assert (Hcall : next_token fuel (Some lx) = Some (error_token lx, Some lx1)).
    { destruct fuel as [| [| fuel]]; try lia.
      unfold lexer_next_token.
      replace (lexer_is_eof (Some lx)) with false
        by (symmetry; cbn [lexer_is_eof]; apply Z.leb_gt; exact Hlt).
      rewrite while_loop_pass. cbn [for_rules]. rewrite Hrules.
      cbn [List.length Nat.ltb Nat.leb after_pass negb conclude].
      unfold no_rule_matched.
      replace (lexer_is_eof (Some lx)) with false
        by (symmetry; cbn [lexer_is_eof]; apply Z.leb_gt; exact Hlt).
      rewrite Hadv. reflexivity. }
    destruct (IH lx1 fuel) as (ts & Hts & Hk & Hn & Hx).
    { congruence. }
    { unfold in_buffer. rewrite Hl, Hp. lia. }
    { rewrite Hl, Hp. lia. }
    { exact Hfuel. }
    exists (error_token lx :: ts).
    cbn [next_tokens advance_times]. rewrite Hcall, Hts, Hadv.
    split; [reflexivity |].
    cbn [map repeat seq error_token create_token token_kind token_length
           token_lexeme].
    rewrite Hk, Hn, Hx, <- seq_shift, map_map.
    repeat split.
    f_equal; [f_equal; lia |].
    apply map_ext. intros k. rewrite Hs, Hp.
    replace (Z.min (lexer_position lx + 1) (lexer_source_length lx))
      with (lexer_position lx + 1) by lia.
    f_equal. lia.
Qed.

Lemma scan_to_end_lemma (m : nat) :
  forward_code matcher_code action_code ->
  matches_consume matcher_code action_code ->
  forall (lx : lexer) (fuel : nat),
    in_buffer lx ->
    lexer_source_length lx - lexer_position lx <= Z.of_nat m ->
    (List.length (lexer_rules lx)
     + Z.to_nat (lexer_source_length lx - lexer_position lx) + 2 <= fuel)%nat ->
    exists (ts : list token_t) (lx' : lexer),
      next_tokens matcher_code action_code fuel (S m) (Some lx)
      = Some (ts ++ [eof_token lx'], Some lx')
      /\ lexer_is_eof (Some lx') = true.
Proof.
  intros Hcode Hcons.
  induction m as [| m IH]; intros lx fuel Hin Hrem Hfuel;
    destruct (lexer_is_eof (Some lx)) eqn:Heof.
  - exists [], lx. rewrite (next_tokens_at_end _ _ _ Heof). auto.
  - cbn [lexer_is_eof] in Heof. apply Z.leb_gt in Heof. lia.
  - exists (repeat (eof_token lx) (S m)), lx.
    rewrite (next_tokens_at_end _ _ _ Heof).
    rewrite <- repeat_cons. auto.
  - destruct (next_token_returns fuel lx Hcode
                (fun rule lx0 lx1 lx2 t t1 t2 Hi Hm Ha _ =>
                   Hcons rule lx0 lx1 lx2 t t1 t2 Hi Hm Ha)
                Hin Hfuel) as (tok & lx1 & Hcall).
    destruct (next_token_forward _ _ _ _ Hcode Hin Hcall)
      as (lx1' & Heq & Hfwd).
    injection Heq as <-.
    destruct (next_token_advances _ _ _ _ Hcode Hcons Hin Heof Hcall)
      as (lx1' & Heq & Hpos).
    injection Heq as <-.
    pose proof (moved_forward_in_buffer _ _ Hin Hfwd) as Hin1.
    destruct Hfwd as (Hr & Hl & Hp).
    destruct (IH lx1 fuel Hin1) as (ts & lx' & Hts & Hend).
    { rewrite Hl. lia. }
    { rewrite Hr, Hl. lia. }
    exists (tok :: ts), lx'.
    split; [| exact Hend].
    change (next_tokens matcher_code action_code fuel (S (S m)) (Some lx))
      with (match next_token fuel (Some lx) with
            | None => None
            | Some (t, l') =>
                match next_tokens matcher_code action_code fuel (S m) l' with
                | None => None
                | Some (ts0, l'') => Some (t :: ts0, l'')
                end
            end).
    rewrite Hcall, Hts. reflexivity.
Qed.

(** X16: when matchers and actions only move the cursor forward within
    the buffer, leave the rules and the length alone and consume input
    whenever they match, scanning ends: with as many calls as there are
    characters left, plus one, every call returns, the last token is
    the EOF token of the engine and the engine is at the end of the
    input. *)
Theorem scan_reaches_end (lx : lexer) (fuel : nat) :
  forward_code matcher_code action_code ->
  matches_consume matcher_code action_code ->
  in_buffer lx ->
  (List.length (lexer_rules lx)
   + Z.to_nat (lexer_source_length lx - lexer_position lx) + 2 <= fuel)%nat ->
  exists (ts : list token_t) (lx' : lexer),
    next_tokens matcher_code action_code fuel
      (S (Z.to_nat (lexer_source_length lx - lexer_position lx))) (Some lx)
    = Some (ts ++ [eof_token lx'], Some lx')
    /\ lexer_is_eof (Some lx') = true.
Proof.
  intros Hcode Hcons Hin Hfuel.
  apply scan_to_end_lemma; try assumption.
  destruct Hin as ((_ & Hle) & _). lia.
Qed.

End ScanProperties.

(** ** The sample rules are disciplined *)

Lemma matches_consume_discards (Ctx : Type)
    (mc : fnptr -> lexer_t Ctx -> token_t -> bool * lexer_t Ctx * token_t)
    (ac : fnptr -> lexer_t Ctx -> token_t -> lexer_t Ctx * token_t) :
  matches_consume mc ac -> discards_consume mc ac.
Proof.
  intros H rule lx lx1 lx2 t t1 t2 Hin Hm Ha _.
  exact (H rule lx lx1 lx2 t t1 t2 Hin Hm Ha).
Qed.

Lemma sample_advance_forward (lx : Sample.lexer) :
  in_buffer lx ->
  moved_forward lx (Sample.advance lx)
  /\ (lexer_is_eof (Some lx) = false ->
      lexer_position (Sample.advance lx) = lexer_position lx + 1).
Proof.
  intros Hin.
  destruct (advance_step lx Hin) as (lx' & Hadv & Hp & _ & Hl & Hr & _).
  unfold Sample.advance, Sample.lexer in *. rewrite Hadv. destruct Hin as ((H0 & H1) & H2).
  split.
  - unfold moved_forward. rewrite Hr, Hl, Hp. repeat split; lia.
  - cbn [lexer_is_eof]. intros Heof. apply Z.leb_gt in Heof. lia.
Qed.

Lemma sample_advance_while_forward (p : ascii -> bool) (n : nat) :
  forall lx : Sample.lexer,
    in_buffer lx -> moved_forward lx (Sample.advance_while p n lx).
Proof.
  induction n as [| n IH]; intros lx Hin; cbn [Sample.advance_while].
  - apply moved_forward_refl. destruct Hin as ((_ & H) & _). exact H.
  - destruct (p (lexer_current (Some lx))).
    + destruct (sample_advance_forward lx Hin) as [Hfwd _].
      exact (moved_forward_trans _ _ _ Hfwd
               (IH _ (moved_forward_in_buffer _ _ Hin Hfwd))).
    + apply moved_forward_refl. destruct Hin as ((_ & H) & _). exact H.
Qed.

Lemma sample_current_not_eof (p : ascii -> bool) (lx : Sample.lexer) :
  p NUL = false -> p (lexer_current (Some lx)) = true ->
  lexer_is_eof (Some lx) = false.
Proof.
  intros Hnul Hp. unfold lexer_current in Hp. cbn [lexer_is_eof].
  destruct (lexer_source_length lx <=? lexer_position lx); [| reflexivity].
  congruence.
Qed.

(** A loop over a class that holds of the current character consumes
    it. *)
Lemma sample_advance_while_consumes (p : ascii -> bool) (lx : Sample.lexer) :
  in_buffer lx -> p NUL = false -> p (lexer_current (Some lx)) = true ->
  lexer_position lx
  < lexer_position (Sample.advance_while p (Sample.remaining lx) lx).
Proof.
  intros Hin Hnul Hp.
  pose proof (sample_current_not_eof p lx Hnul Hp) as Heof.
  destruct (sample_advance_forward lx Hin) as [Hfwd Hone].
  specialize (Hone Heof).
  cbn [lexer_is_eof] in Heof. apply Z.leb_gt in Heof.
  unfold Sample.remaining.
  destruct (Z.to_nat (lexer_source_length lx - lexer_position lx))
    as [| n] eqn:Hn; [lia |].
  cbn [Sample.advance_while]. rewrite Hp.
  pose proof (sample_advance_while_forward p n _
                (moved_forward_in_buffer _ _ Hin Hfwd)) as (_ & _ & Hle).
  lia.
Qed.

Lemma sample_matcher_forward (f : fnptr) (lx : Sample.lexer) (t : token_t) :
  in_buffer lx ->
  moved_forward lx (snd (fst (Sample.matcher_code f lx t)))
  /\ (fst (fst (Sample.matcher_code f lx t)) = true ->
      lexer_position lx
      < lexer_position (snd (fst (Sample.matcher_code f lx t)))).
Proof.
  intros Hin.
  assert (Hrefl : moved_forward lx lx)
    by (apply moved_forward_refl; destruct Hin as ((_ & H) & _); exact H).
  unfold Sample.matcher_code.
  destruct (N.eqb f Sample.MATCH_SPACE);
    [| destruct (N.eqb f Sample.MATCH_IDENT);
       [| destruct (N.eqb f Sample.MATCH_ANY);
          [| destruct (N.eqb f Sample.MATCH_STRING)]]].
  - unfold Sample.match_space.
    destruct (lexer_is_space (lexer_current (Some lx))) eqn:Hc; cbn [fst snd].
    + split; [apply sample_advance_while_forward; exact Hin |].
      intros _. apply sample_advance_while_consumes; auto.
    + split; [exact Hrefl | discriminate].
  - unfold Sample.match_ident.
    destruct (lexer_is_alpha (lexer_current (Some lx))) eqn:Hc; cbn [fst snd].
    + split; [apply sample_advance_while_forward; exact Hin |].
      intros _.
      pose proof (sample_current_not_eof lexer_is_alpha lx eq_refl Hc) as Heof.
      destruct (sample_advance_forward lx Hin) as [Hfwd Hone].
      specialize (Hone Heof).
      cbn [lexer_is_eof] in Heof. apply Z.leb_gt in Heof.
      unfold Sample.remaining.
      destruct (Z.to_nat (lexer_source_length lx - lexer_position lx))
        as [| n] eqn:Hn; [lia |].
      cbn [Sample.advance_while].
      replace (lexer_is_alnum (lexer_current (Some lx))) with true
        by (unfold lexer_is_alnum; rewrite Hc; reflexivity).
      pose proof (sample_advance_while_forward lexer_is_alnum n _
                    (moved_forward_in_buffer _ _ Hin Hfwd)) as (_ & _ & Hle).
      lia.
    + split; [exact Hrefl | discriminate].
  - unfold Sample.match_any.
    destruct (lexer_is_eof (Some lx)) eqn:Heof; cbn [fst snd].
    + split; [exact Hrefl | discriminate].
    + destruct (sample_advance_forward lx Hin) as [Hfwd Hone].
      split; [exact Hfwd |]. intros _. rewrite (Hone Heof). lia.
  - unfold Sample.match_string.
    destruct (Ascii.eqb (lexer_current (Some lx)) Sample.quote) eqn:Hq;
      cbn [fst snd]; [| split; [exact Hrefl | discriminate]].
    pose proof (sample_current_not_eof
                  (fun c => Ascii.eqb c Sample.quote) lx eq_refl Hq) as Heof.
    destruct (sample_advance_forward lx Hin) as [Hfwd1 Hone].
    specialize (Hone Heof).
    pose proof (moved_forward_in_buffer _ _ Hin Hfwd1) as Hin1.
    pose proof (sample_advance_while_forward
                  (fun c => negb (Ascii.eqb c Sample.quote)
                            && negb (Ascii.eqb c NUL))
                  (Sample.remaining (Sample.advance lx)) _ Hin1) as Hfwd2.
    pose proof (moved_forward_in_buffer _ _ Hin1 Hfwd2) as Hin2.
    pose proof (moved_forward_trans _ _ _ Hfwd1 Hfwd2) as Hfwd12.
    match goal with
    | |- context [if ?b then _ else _] => destruct b
    end; cbn [fst snd].
    + destruct (sample_advance_forward _ Hin2) as [Hfwd3 _].
      pose proof (moved_forward_trans _ _ _ Hfwd12 Hfwd3) as Hfwd.
      split; [exact Hfwd |]. intros _.
      destruct Hfwd2 as (_ & _ & Hle2). destruct Hfwd3 as (_ & _ & Hle3). lia.
    + split; [exact Hfwd12 | discriminate].
  - cbn [fst snd]. split; [exact Hrefl | discriminate].
Qed.

Lemma sample_action_same_engine (f : fnptr) (lx : Sample.lexer) (t : token_t) :
  fst (Sample.action_code f lx t) = lx.
Proof.
  unfold Sample.action_code, Sample.mark_ignored.
  destruct (N.eqb f Sample.MARK_IGNORED); reflexivity.
Qed.

Lemma sample_forward_code :
  forward_code Sample.matcher_code Sample.action_code.
Proof.
  split; intros f lx t Hin.
  - exact (proj1 (sample_matcher_forward f lx t Hin)).
  - rewrite sample_action_same_engine.
    apply moved_forward_refl. destruct Hin as ((_ & H) & _). exact H.
Qed.

Lemma sample_matches_consume :
  matches_consume Sample.matcher_code Sample.action_code.
Proof.
  intros rule lx lx1 lx2 t t1 t2 Hin Hm Ha.
  pose proof (proj2 (sample_matcher_forward (matcher rule) lx t Hin)) as Hpos.
  rewrite Hm in Hpos. cbn [fst snd] in Hpos. specialize (Hpos eq_refl).
  assert (Hsame : lx2 = lx1).
  { unfold run_action in Ha.
    destruct (fn_is_null (action rule)); [congruence |].
    pose proof (sample_action_same_engine (action rule) lx1 t1) as H.
    rewrite Ha in H. exact H. }
  subst lx2. exact Hpos.
Qed.

Lemma sample_keeps_token_filename :
  keeps_token_filename Sample.matcher_code Sample.action_code.
Proof.
  split; intros f lx t.
  - unfold Sample.matcher_code, Sample.match_space, Sample.match_ident,
      Sample.match_any, Sample.match_string.
    repeat match goal with
           | |- context [if ?b then _ else _] => destruct b
           end; reflexivity.
  - unfold Sample.action_code, Sample.mark_ignored.
    destruct (N.eqb f Sample.MARK_IGNORED); reflexivity.
Qed.

(** ** The further properties on concrete inputs *)

Ltac sample_in_buffer :=
  unfold in_buffer; vm_compute; repeat split; solve [discriminate | reflexivity].

Lemma advance_times_stops_at_end_witness :
  exists lx' : Sample.lexer,
    advance_times 5 (Some Sample.at_hash) = Some lx'
    /\ lexer_position lx' = 3.
Proof.
  destruct (advance_times_stops_at_end Sample.at_hash 5)
    as (lx' & Hadv & Hp & _).
  - sample_in_buffer.
  - exists lx'. split; [exact Hadv | exact Hp].
Defined.

Lemma advance_times_line_column_witness :
  exists lx' : Sample.lexer,
    advance_times 2 (Some Sample.two_lines) = Some lx'
    /\ lexer_line lx' = 2
    /\ lexer_column lx' = 1.
Proof.
  destruct (advance_times_line_column 2 Sample.two_lines)
    as (lx' & Hadv & _ & Hline & _ & Hcol).
  - sample_in_buffer.
  - vm_compute. discriminate.
  - vm_compute. discriminate.
  - vm_compute. reflexivity.
  - vm_compute. discriminate.
  - vm_compute. reflexivity.
  - exists lx'. split; [exact Hadv |]. split; [exact Hline |].
    apply Hcol; [lia | vm_compute; reflexivity].
Defined.

Lemma end_of_input_reads_sentinel_witness :
  lexer_current (Some Sample.at_end) = NUL
  /\ lexer_peek (Some Sample.at_end) 3 = NUL
  /\ lexer_advance (Some Sample.at_end) = Some Sample.at_end.
Proof.
  destruct (end_of_input_reads_sentinel Sample.at_end 3)
    as (Hc & Hp & Ha & _).
  - vm_compute. reflexivity.
  - lia.
  - vm_compute. reflexivity.
  - vm_compute. discriminate.
  - split; [exact Hc |]. split; [exact Hp | exact Ha].
Defined.

Lemma get_lexeme_points_at_peek_witness :
  lexer_get_lexeme (Some Sample.at_hash) 3 1 = NULL
  /\ load (lexer_get_lexeme (Some Sample.at_hash) 2 10) 0
     = lexer_peek (Some Sample.at_hash) 1.
Proof.
  destruct (get_lexeme_points_at_peek Sample.at_hash 3 1) as [Hout _].
  - vm_compute. discriminate.
  - vm_compute. discriminate.
  - destruct (get_lexeme_points_at_peek Sample.at_hash 2 10) as [_ Hin].
    + vm_compute. discriminate.
    + vm_compute. discriminate.
    + split.
      * apply Hout. vm_compute. discriminate.
      * apply Hin. vm_compute. split; [discriminate | reflexivity].
Defined.

Lemma zero_length_binds_c_string_witness :
  exists lx : Sample.lexer,
    lexer_reset (Some Sample.at_end) (Sample.buffer "xy") 0 Sample.file_name
    = Some lx
    /\ lexer_source_length lx = 2
    /\ (lexer_current (Some lx) = NUL <-> lexer_is_eof (Some lx) = true).
Proof.
  destruct (zero_length_binds_c_string Sample.at_end (CallerBuffer 1 "xy") 0
              NULL Sample.file_name 0)
    as (_ & (lx & Hreset & Hsrc & Hlen) & Hiff).
  - lia.
  - exists lx. split; [exact Hreset |]. split; [exact Hlen |].
    apply Hiff; [exact Hsrc | exact Hlen |].
    injection Hreset as <-. vm_compute. discriminate.
Defined.


Lemma matched_tokens_have_no_filename_witness :
  exists (result : token_t) (l' : option Sample.lexer),
    Sample.next_token 3 (Some Sample.two_words) = Some (result, l')
    /\ token_kind result = Sample.TOKEN_IDENT
    /\ (token_filename result = NULL
        \/ exists lxp : Sample.lexer,
            (result = eof_token lxp \/ result = error_token lxp)
            /\ token_filename result = lexer_filename lxp).
Proof.
  eexists _, _.
  assert (H : Sample.next_token 3 (Some Sample.two_words)
              = Some (fst (Sample.unwrap_result
                             (Sample.next_token 3 (Some Sample.two_words))),
                      snd (Sample.unwrap_result
                             (Sample.next_token 3 (Some Sample.two_words)))))
    by (vm_compute; reflexivity).
  split; [exact H |]. split; [vm_compute; reflexivity |].
  exact (matched_tokens_have_no_filename Sample.matcher_code
           Sample.action_code 3 _ _ _ sample_keeps_token_filename H).
Defined.

Lemma sample_keeps_token_start :
  keeps_token_start Sample.matcher_code Sample.action_code.
Proof.
  split; intros f lx t.
  - unfold Sample.matcher_code, Sample.match_space, Sample.match_ident,
      Sample.match_any, Sample.match_string.
    repeat match goal with
           | |- context [if ?b then _ else _] => destruct b
           end; repeat split.
  - unfold Sample.action_code, Sample.mark_ignored.
    destruct (N.eqb f Sample.MARK_IGNORED); repeat split.
Qed.

Lemma next_token_moves_forward_witness :
  exists (result : token_t) (lx' : Sample.lexer),
    Sample.next_token 7 (Some Sample.blanks_x) = Some (result, Some lx')
    /\ moved_forward Sample.blanks_x lx'.
Proof.
  assert (H : Sample.next_token 7 (Some Sample.blanks_x)
              = Some (Sample.unwrap_result
                        (Sample.next_token 7 (Some Sample.blanks_x))))
    by (vm_compute; reflexivity).
  destruct (Sample.unwrap_result _) as [result l'].
  destruct (next_token_moves_forward Sample.matcher_code Sample.action_code
              7 Sample.blanks_x result l' sample_forward_code)
    as (lx' & Heq & Hfwd).
  - sample_in_buffer.
  - exact H.
  - exists result, lx'. subst l'. split; [exact H | exact Hfwd].
Defined.

Lemma next_token_terminates_witness :
  exists (result : token_t) (lx' : Sample.lexer),
    Sample.next_token 7 (Some Sample.blanks_x) = Some (result, Some lx').
Proof.
  apply (next_token_terminates Sample.matcher_code Sample.action_code
           7 Sample.blanks_x sample_forward_code
           (matches_consume_discards _ _ _ sample_matches_consume)).
  - sample_in_buffer.
  - vm_compute. lia.
Defined.

Lemma next_token_progress_witness :
  exists (result : token_t) (lx' : Sample.lexer),
    Sample.next_token 3 (Some Sample.at_hash) = Some (result, Some lx')
    /\ lexer_position Sample.at_hash < lexer_position lx'.
Proof.
  assert (H : Sample.next_token 3 (Some Sample.at_hash)
              = Some (Sample.unwrap_result
                        (Sample.next_token 3 (Some Sample.at_hash))))
    by (vm_compute; reflexivity).
  destruct (Sample.unwrap_result _) as [result l'].
  destruct (next_token_progress Sample.matcher_code Sample.action_code
              3 Sample.at_hash result l' sample_forward_code
              sample_matches_consume)
    as (lx' & Heq & Hpos).
  - sample_in_buffer.
  - vm_compute. reflexivity.
  - exact H.
  - exists result, lx'. subst l'. split; [exact H | exact Hpos].
Defined.

(** On [ab cd] the identifier carries line 1, column 1 and the start of
    the buffer. *)
Lemma matched_token_location_witness :
  exists (result : token_t) (l' : option Sample.lexer),
    Sample.next_token 3 (Some Sample.two_words) = Some (result, l')
    /\ (engine_eof_token result
        \/ engine_error_token result l'
        \/ located_token Sample.matcher_code Sample.action_code result l').
Proof.
  assert (H : Sample.next_token 3 (Some Sample.two_words)
              = Some (Sample.unwrap_result
                        (Sample.next_token 3 (Some Sample.two_words))))
    by (vm_compute; reflexivity).
  destruct (Sample.unwrap_result _) as [result l'].
  exists result, l'. split; [exact H |].
  exact (matched_token_location Sample.matcher_code Sample.action_code
           3 _ _ _ sample_keeps_token_start H).
Defined.

Lemma no_rules_error_run_witness :
  exists ts : list token_t,
    next_tokens Sample.matcher_code Sample.action_code 2 1
      (Some Sample.second_of_ab)
    = Some (ts, advance_times 1 (Some Sample.second_of_ab))
    /\ map token_kind ts = [INTERNAL_TOKEN_ERROR]
    /\ map token_lexeme ts = [Ptr (CallerBuffer 1 "ab") 1].
Proof.
  destruct (no_rules_error_run Sample.matcher_code Sample.action_code 1
              Sample.second_of_ab 2)
    as (ts & Hts & Hk & _ & Hx).
  - reflexivity.
  - sample_in_buffer.
  - vm_compute. discriminate.
  - lia.
  - exists ts. split; [exact Hts |]. split; [exact Hk | exact Hx].
Defined.

Lemma scan_reaches_end_witness :
  exists (ts : list token_t) (lx' : Sample.lexer),
    next_tokens Sample.matcher_code Sample.action_code 10 6
      (Some Sample.two_words)
    = Some (ts ++ [eof_token lx'], Some lx')
    /\ lexer_is_eof (Some lx') = true.
Proof.
  apply (scan_reaches_end Sample.matcher_code Sample.action_code
           Sample.two_words 10 sample_forward_code sample_matches_consume).
  - sample_in_buffer.
  - vm_compute. lia.
Defined.

Lemma peek_is_current_after_advances_witness :
  lexer_peek (Some Sample.at_hash) 1
  = lexer_current (advance_times 1 (Some Sample.at_hash)).
Proof.
  apply (peek_is_current_after_advances Sample.at_hash 1).
  - sample_in_buffer.
  - vm_compute. reflexivity.
Defined.

Lemma sample_keeps_engine_flags :
  keeps_engine_flags Sample.matcher_code Sample.action_code.
Proof.
  assert (Hadv : forall lx : Sample.lexer,
             lexer_flags (Sample.advance lx) = lexer_flags lx).
  { intros lx. unfold Sample.advance, lexer_advance.
    repeat match goal with
           | |- context [if ?b then _ else _] => destruct b
           end; reflexivity. }
  assert (Hwhile : forall (p : ascii -> bool) (n : nat) (lx : Sample.lexer),
             lexer_flags (Sample.advance_while p n lx) = lexer_flags lx).
  { intros p n. induction n as [| n IH]; intros lx;
      cbn [Sample.advance_while]; [reflexivity |].
    destruct (p (lexer_current (Some lx))); [| reflexivity].
    rewrite IH. apply Hadv. }
  split; intros f lx t.
  - unfold Sample.matcher_code, Sample.match_space, Sample.match_ident,
      Sample.match_any, Sample.match_string.
    repeat match goal with
           | |- context [if ?b then _ else _] => destruct b
           end; cbn [fst snd]; rewrite ?Hadv, ?Hwhile, ?Hadv; reflexivity.
  - rewrite sample_action_same_engine. reflexivity.
Qed.


(** * The code against the algorithm *)

Section Refinement.

Context {Ctx : Type}.
Variable matcher_code :
  fnptr -> lexer_t Ctx -> token_t -> bool * lexer_t Ctx * token_t.
Variable action_code : fnptr -> lexer_t Ctx -> token_t -> lexer_t Ctx * token_t.

Local Abbreviation lexer := (lexer_t Ctx).
Local Abbreviation scan_rules := (for_rules matcher_code action_code).
Local Abbreviation scan := (while_loop matcher_code action_code).
Local Abbreviation next_token := (lexer_next_token matcher_code action_code).
Local Abbreviation pass := (pass_spec matcher_code action_code).
Local Abbreviation scanning := (scan_spec matcher_code action_code).

(** ** Records from their fields *)

Lemma stamped_set (lx : lexer) (p l c : Z) (t : token_t) :
  stamped lx p l c t (set_token_start t l c (ptr_add (lexer_source lx) p)).
Proof.
  repeat split.
Qed.

Lemma stamped_eq (lx : lexer) (p l c : Z) (t ts : token_t) :
  stamped lx p l c t ts ->
  ts = set_token_start t l c (ptr_add (lexer_source lx) p).
Proof.
  unfold stamped, set_token_start. destruct ts; cbn.
  intros (-> & -> & -> & -> & -> & -> & ->). reflexivity.
Qed.

Lemma relocated_set (lx1 : lexer) (p l c : Z) :
  relocated lx1 p l c (set_location lx1 p l c).
Proof.
  repeat split.
Qed.

Lemma relocated_eq (lx1 lxr : lexer) (p l c : Z) :
  relocated lx1 p l c lxr -> lxr = set_location lx1 p l c.
Proof.
  unfold relocated, set_location. destruct lxr; cbn.
  intros (-> & -> & -> & -> & -> & -> & -> & -> & -> & ->). reflexivity.
Qed.

Lemma token_copy_same (t : token_t) :
  create_token (token_kind t) (token_lexeme t) (token_length t)
    (token_line t) (token_column t) (token_filename t) (token_flags t)
  = t.
Proof.
  destruct t. reflexivity.
Qed.

Lemma rule_of_table (rs : lexer_rules_t) (i : nat) (r : lexer_rule_t) :
  nth_error rs i = Some r ->
  (i <? List.length rs)%nat = true /\ nth i rs null_rule = r.
Proof.
  intros H. split.
  - apply Nat.ltb_lt. apply nth_error_Some. congruence.
  - apply nth_error_nth. exact H.
Qed.

Lemma action_leaves_run (r : lexer_rule_t) (lx1 lx2 : lexer) (t1 t2 : token_t) :
  action_leaves action_code r lx1 t1 lx2 t2 <->
  run_action action_code r lx1 t1 = (lx2, t2).
Proof.
  unfold action_leaves, run_action, fn_is_null.
  destruct (N.eqb (action r) 0) eqn:Hnull.
  - apply N.eqb_eq in Hnull. split.
    + intros [(_ & -> & ->) | (Hn & _)]; [reflexivity | congruence].
    + intros H. injection H as <- <-. left. auto.
  - apply N.eqb_neq in Hnull. split.
    + intros [(Hn & _) | (_ & H)]; [congruence | exact H].
    + intros H. right. auto.
Qed.

Lemma ignored_discarded (lx : lexer) (t : token_t) :
  ignored lx t <-> is_discarded lx t = true.
Proof.
  unfold ignored, is_discarded, has_ignore, keeps_ignorable.
  destruct (Z.eqb_spec (Z.land (token_flags t) TOKEN_FLAG_IGNORE) 0)
    as [Hi | Hi];
    destruct (Z.eqb_spec (Z.land (lexer_flags lx) LEXER_FLAG_KEEP_IGNORABLE) 0)
      as [Hk | Hk];
    cbn [negb andb]; split.
  - intros [H _]. contradiction.
  - discriminate.
  - intros [H _]. contradiction.
  - discriminate.
  - reflexivity.
  - intros _. split; assumption.
  - intros [_ H]. contradiction.
  - discriminate.
Qed.

Lemma not_ignored_kept (lx : lexer) (t : token_t) :
  ~ ignored lx t <-> is_discarded lx t = false.
Proof.
  rewrite ignored_discarded. destruct (is_discarded lx t); split;
    intros H; try reflexivity; try discriminate; congruence.
Qed.

(** ** Fuel *)

Lemma for_rules_fuel_le (fuel fuel' : nat) (reset : bool) (lx : lexer)
    (token : token_t) (sp sl sc : Z) (i : nat) (o : for_outcome) :
  (fuel <= fuel')%nat ->
  scan_rules fuel reset lx token sp sl sc i = Some o ->
  scan_rules fuel' reset lx token sp sl sc i = Some o.
Proof.
  intros Hle H. induction Hle as [| fuel' _ IH]; [exact H |].
  apply for_rules_more_fuel. exact IH.
Qed.

Lemma while_loop_fuel_le (fuel fuel' : nat) (lx : lexer) (token : token_t)
    (o : while_outcome) :
  (fuel <= fuel')%nat ->
  scan fuel lx token = Some o -> scan fuel' lx token = Some o.
Proof.
  intros Hle H. induction Hle as [| fuel' _ IH]; [exact H |].
  apply while_loop_more_fuel. exact IH.
Qed.

(** ** A pass of the code is a pass of the algorithm *)

Lemma pass_for_rules (p l c : Z) (lx : lexer) (t : token_t) (i n : nat)
    (o : pass_result) :
  pass p l c lx t i n o ->
  scan_rules n false lx t p l c i
  = Some (match o with
          | NoRuleMatches lxa ta => ForExit false lxa ta
          | FirstMatch lx2 t2 =>
              if is_discarded lx2 t2 then ForExit true lx2 t2
              else ForReturn t2 lx2
          end).
Proof.
  induction 1 as [lx t i Hend
                 | lx t i r ts lx1 t1 lxr n o Hr Hs Hm Hl Hrest IH
                 | lx t i r ts lx1 t1 lx2 t2 Hr Hs Hm Ha];
    cbn [for_rules].
  - apply Nat.ltb_ge in Hend. rewrite Hend. reflexivity.
  - destruct (rule_of_table _ _ _ Hr) as [Hi Hnth].
    rewrite Hi, Hnth, <- (stamped_eq _ _ _ _ _ _ Hs), Hm.
    rewrite <- (relocated_eq _ _ _ _ _ Hl). exact IH.
  - destruct (rule_of_table _ _ _ Hr) as [Hi Hnth].
    rewrite Hi, Hnth, <- (stamped_eq _ _ _ _ _ _ Hs), Hm.
    apply action_leaves_run in Ha. rewrite Ha.
    rewrite token_copy_same. destruct (is_discarded lx2 t2); reflexivity.
Qed.

Lemma pass_location (p l c : Z) (lx : lexer) (t : token_t) (i n : nat)
    (lxa : lexer) (ta : token_t) :
  pass p l c lx t i n (NoRuleMatches lxa ta) ->
  lexer_position lx = p -> lexer_line lx = l -> lexer_column lx = c ->
  lexer_position lxa = p /\ lexer_line lxa = l /\ lexer_column lxa = c.
Proof.
  intros H. remember (NoRuleMatches lxa ta) as o eqn:Ho.
  induction H as [lx t i Hend
                 | lx t i r ts lx1 t1 lxr n o Hr Hs Hm Hl Hrest IH
                 | lx t i r ts lx1 t1 lx2 t2 Hr Hs Hm Ha];
    intros Hp Hln Hc.
  - injection Ho as <- <-. auto.
  - destruct Hl as (Hp' & Hl' & Hc' & _). apply IH; assumption.
  - discriminate.
Qed.

Lemma scan_while_loop (lx : lexer) (t : token_t) (n : nat) (o : scan_result) :
  scanning lx t n o ->
  scan n lx t
  = Some (match o with
          | TokenMatched t2 lx2 => Returned t2 lx2
          | NothingMatched lxa ta => NoMatch lxa ta
          end).
Proof.
  induction 1 as [lx t n lx2 t2 Hpass Hkeep
                 | lx t n lxa ta Hpass
                 | lx t n lx2 t2 m o Hpass Hign Hrest IH];
    rewrite while_loop_pass.
  - rewrite (pass_for_rules _ _ _ _ _ _ _ _ Hpass).
    apply not_ignored_kept in Hkeep. rewrite Hkeep. reflexivity.
  - rewrite (pass_for_rules _ _ _ _ _ _ _ _ Hpass). reflexivity.
  - rewrite (for_rules_fuel_le n (Nat.max n m) _ _ _ _ _ _ _ _
               (Nat.le_max_l n m) (pass_for_rules _ _ _ _ _ _ _ _ Hpass)).
    apply ignored_discarded in Hign. rewrite Hign. cbn [after_pass negb].
    exact (while_loop_fuel_le m (Nat.max n m) _ _ _ (Nat.le_max_r n m) IH).
Qed.

Lemma scan_next_token (lx : lexer) (n fuel : nat) (o : scan_result) :
  lexer_position lx < lexer_source_length lx ->
  scanning lx token_zero n o ->
  (n <= fuel)%nat ->
  exists (result : token_t) (l' : option lexer),
    next_token fuel (Some lx) = Some (result, l')
    /\ call_returns o result l'.
Proof.
  intros Hnot Hscan Hfuel.
  unfold lexer_next_token, lexer_is_eof.
  apply Z.leb_gt in Hnot. rewrite Hnot.
  rewrite (while_loop_fuel_le n fuel _ _ _ Hfuel (scan_while_loop _ _ _ _ Hscan)).
  destruct o as [t2 lx2 | lxa ta]; cbn [conclude call_returns].
  - eexists _, _. split; [reflexivity | auto].
  - unfold no_rule_matched, lexer_is_eof.
    destruct (lexer_source_length lxa <=? lexer_position lxa) eqn:Heof.
    + eexists _, _. split; [reflexivity |]. left.
      apply Z.leb_le in Heof. split; [exact Heof |]. repeat split.
    + eexists _, _. split; [reflexivity |]. right.
      apply Z.leb_gt in Heof. split; [exact Heof |]. repeat split.
Qed.

(** ** End of input *)

(** C5: when the cursor is at or past the end of the buffer, whatever
    the fuel, a call of [lexer_next_token] returns a token of kind EOF
    whose line, column and file name are those of the engine (its
    lexeme the string literal of the library, its length and flags 0),
    and leaves the engine as it was; so any number of calls in a row
    return that same token each time and leave the engine unchanged. *)
Theorem next_token_eof_idempotent (lx : lexer) (fuel n : nat) :
  lexer_source_length lx <= lexer_position lx ->
  exists result : token_t,
    next_token fuel (Some lx) = Some (result, Some lx)
    /\ token_kind result = INTERNAL_TOKEN_EOF
    /\ token_line result = lexer_line lx
    /\ token_column result = lexer_column lx
    /\ token_filename result = lexer_filename lx
    /\ token_lexeme result = EOF_LITERAL
    /\ token_length result = 0
    /\ token_flags result = 0
    /\ next_tokens matcher_code action_code fuel n (Some lx)
       = Some (repeat result n, Some lx).
Proof.
  intros Hend. apply Z.leb_le in Hend.
  eexists. split.
  { unfold lexer_next_token, lexer_is_eof. rewrite Hend. reflexivity. }
  repeat split.
  induction n as [| n IH]; cbn [next_tokens repeat]; [reflexivity |].
  unfold lexer_next_token at 1. unfold lexer_is_eof. rewrite Hend, IH.
  reflexivity.
Qed.

(** ** Failed attempts *)

(** C3: in a pass with origin [p], [l], [c], let the matcher of rule
    [i] report failure, leaving the engine as [lx1] with the cursor
    anywhere.  The pass goes on with rule [i + 1] on the engine [lxr]
    whose position, line and column are [p], [l], [c] again (its other
    fields being those of [lx1]): whatever a pass from rule [i + 1] on
    [lxr] comes to is what the loop, run from rule [i], comes to: no
    rule, or the first match, returned or discarded. *)
Theorem failed_matcher_restores_origin (p l c : Z) (lx : lexer) (t : token_t)
    (i : nat) (r : lexer_rule_t) (ts : token_t) (lx1 : lexer) (t1 : token_t)
    (lxr : lexer) (n fuel : nat) (o : pass_result) :
  nth_error (lexer_rules lx) i = Some r ->
  stamped lx p l c t ts ->
  matcher_code (matcher r) lx ts = (false, lx1, t1) ->
  relocated lx1 p l c lxr ->
  pass p l c lxr t1 (S i) n o ->
  (S n <= fuel)%nat ->
  match o with
  | NoRuleMatches lxa ta =>
      scan_rules fuel false lx t p l c i = Some (ForExit false lxa ta)
  | FirstMatch lx2 t2 =>
      (~ ignored lx2 t2 ->
       scan_rules fuel false lx t p l c i = Some (ForReturn t2 lx2))
      /\ (ignored lx2 t2 ->
          scan_rules fuel false lx t p l c i = Some (ForExit true lx2 t2))
  end.
Proof.
  intros Hr Hs Hm Hl Hrest Hfuel.
  assert (Hfull : pass p l c lx t i (S n) o)
    by (eapply pass_rule_fails; eassumption).
  pose proof (pass_for_rules _ _ _ _ _ _ _ _ Hfull) as Hrun.
  apply (for_rules_fuel_le _ fuel _ _ _ _ _ _ _ _ Hfuel) in Hrun.
  destruct o as [lx2 t2 | lxa ta]; [| exact Hrun].
  split; intros Hflag.
  - apply not_ignored_kept in Hflag. rewrite Hflag in Hrun. exact Hrun.
  - apply ignored_discarded in Hflag. rewrite Hflag in Hrun. exact Hrun.
Qed.

(** ** The first success *)

(** C1: let a pass from the engine [lx] come to a first match whose
    token [t2] (after the action, if any) carries the Ignore flag, the
    engine [lx2] it leaves having KeepIgnorable unset.  The loop over
    the rules then ends without returning a token and without trying a
    later rule.  The scan restarts: whatever passes from [lx2] with the
    working token [t2] come to (each from rule 0 and with the location
    of the engine as its origin), the loops and [lexer_next_token]
    return that, not [t2]. *)
Theorem ignorable_token_restarts_scan (lx : lexer) (token : token_t)
    (n : nat) (lx2 : lexer) (t2 : token_t) :
  pass (lexer_position lx) (lexer_line lx) (lexer_column lx)
    lx token O n (FirstMatch lx2 t2) ->
  Z.land (token_flags t2) TOKEN_FLAG_IGNORE <> 0 ->
  Z.land (lexer_flags lx2) LEXER_FLAG_KEEP_IGNORABLE = 0 ->
  (forall fuel : nat,
      (n <= fuel)%nat ->
      scan_rules fuel false lx token
        (lexer_position lx) (lexer_line lx) (lexer_column lx) O
      = Some (ForExit true lx2 t2))
  /\ (forall (m fuel : nat) (o : scan_result),
         scanning lx2 t2 m o ->
         (S (Nat.max n m) <= fuel)%nat ->
         scan fuel lx token
         = Some (match o with
                 | TokenMatched t4 lx4 => Returned t4 lx4
                 | NothingMatched lxb tb => NoMatch lxb tb
                 end))
  /\ (forall (m fuel : nat) (o : scan_result),
         scanning lx2 t2 m o ->
         lexer_position lx < lexer_source_length lx ->
         token = token_zero ->
         (S (Nat.max n m) <= fuel)%nat ->
         exists (result : token_t) (l' : option lexer),
           next_token fuel (Some lx) = Some (result, l')
           /\ call_returns o result l').
Proof.
  intros Hpass Hign Hkeep.
  assert (Hflag : ignored lx2 t2) by (split; assumption).
  split; [| split].
  - intros fuel Hfuel.
    pose proof (pass_for_rules _ _ _ _ _ _ _ _ Hpass) as Hrun.
    cbv beta iota in Hrun.
    rewrite (proj1 (ignored_discarded _ _) Hflag) in Hrun.
    exact (for_rules_fuel_le _ _ _ _ _ _ _ _ _ _ Hfuel Hrun).
  - intros m fuel o Hrest Hfuel.
    assert (Hscan : scanning lx token (S (Nat.max n m)) o)
      by (eapply scan_restarts; eassumption).
    exact (while_loop_fuel_le _ _ _ _ _ Hfuel (scan_while_loop _ _ _ _ Hscan)).
  - intros m fuel o Hrest Hnot -> Hfuel.
    assert (Hscan : scanning lx token_zero (S (Nat.max n m)) o)
      by (eapply scan_restarts; eassumption).
    exact (scan_next_token _ _ _ _ Hnot Hscan Hfuel).
Qed.

(** C2, as the code has it: let a pass from the engine [lx] come to
    its first match, at whatever length: the rules before it have
    failed in the order of the table and no later rule is tried.  When
    the token [t2] of that rule is not ignored, the loop returns it and
    it is the token [lexer_next_token] returns.  When it is ignored
    (Ignore set, KeepIgnorable unset) it is not returned: the loop
    ends without a token and the call returns what the scan restarted
    from the engine [lx2] comes to. *)
Theorem first_matching_rule_wins (lx : lexer) (token : token_t)
    (n : nat) (lx2 : lexer) (t2 : token_t) :
  pass (lexer_position lx) (lexer_line lx) (lexer_column lx)
    lx token O n (FirstMatch lx2 t2) ->
  (~ ignored lx2 t2 ->
   (forall fuel : nat,
       (n <= fuel)%nat ->
       scan_rules fuel false lx token
         (lexer_position lx) (lexer_line lx) (lexer_column lx) O
       = Some (ForReturn t2 lx2))
   /\ (forall fuel : nat,
          lexer_position lx < lexer_source_length lx ->
          token = token_zero ->
          (S n <= fuel)%nat ->
          next_token fuel (Some lx) = Some (t2, Some lx2)))
  /\ (ignored lx2 t2 ->
      (forall fuel : nat,
          (n <= fuel)%nat ->
          scan_rules fuel false lx token
            (lexer_position lx) (lexer_line lx) (lexer_column lx) O
          = Some (ForExit true lx2 t2))
      /\ (forall (m fuel : nat) (o : scan_result),
             scanning lx2 t2 m o ->
             lexer_position lx < lexer_source_length lx ->
             token = token_zero ->
             (S (Nat.max n m) <= fuel)%nat ->
             exists (result : token_t) (l' : option lexer),
               next_token fuel (Some lx) = Some (result, l')
               /\ call_returns o result l')).
Proof.
  intros Hpass.
  pose proof (pass_for_rules _ _ _ _ _ _ _ _ Hpass) as Hrun.
  cbv beta iota in Hrun.
  split; intros Hflag; split.
  - intros fuel Hfuel.
    rewrite (proj1 (not_ignored_kept _ _) Hflag) in Hrun.
    exact (for_rules_fuel_le _ _ _ _ _ _ _ _ _ _ Hfuel Hrun).
  - intros fuel Hnot -> Hfuel.
    assert (Hscan : scanning lx token_zero (S n) (TokenMatched t2 lx2))
      by (eapply scan_returns; eassumption).
    destruct (scan_next_token _ _ _ _ Hnot Hscan Hfuel)
      as (result & l' & Hcall & -> & ->).
    exact Hcall.
  - intros fuel Hfuel.
    rewrite (proj1 (ignored_discarded _ _) Hflag) in Hrun.
    exact (for_rules_fuel_le _ _ _ _ _ _ _ _ _ _ Hfuel Hrun).
  - intros m fuel o Hrest Hnot -> Hfuel.
    assert (Hscan : scanning lx token_zero (S (Nat.max n m)) o)
      by (eapply scan_restarts; eassumption).
    exact (scan_next_token _ _ _ _ Hnot Hscan Hfuel).
Qed.

(** ** Unmatched input *)

(** C4, as the code has it: let the engine [lx] not be at EOF and let
    a pass from it come to no rule, the failed matchers leaving the
    engine as [lxa] (positions and lengths being [size_t] values).
    When the length of the buffer is still above the position, the call
    returns a token of kind ERROR whose lexeme is the one character at
    the position of [lx], with the line and column of [lx], and leaves
    the engine one character further: the position has strictly
    increased.  When a failed matcher has brought the length down to
    the position or below, the call returns an EOF token and the
    position is as it was. *)
Theorem unmatched_input_yields_error (lx : lexer) (n : nat) (lxa : lexer)
    (ta : token_t) (fuel : nat) :
  lexer_position lx < lexer_source_length lx ->
  pass (lexer_position lx) (lexer_line lx) (lexer_column lx)
    lx token_zero O n (NoRuleMatches lxa ta) ->
  0 <= lexer_position lx ->
  lexer_source_length lxa < size_modulus ->
  (S n <= fuel)%nat ->
  (lexer_position lx < lexer_source_length lxa ->
   exists (result : token_t) (lx'' : lexer),
     next_token fuel (Some lx) = Some (result, Some lx'')
     /\ token_kind result = INTERNAL_TOKEN_ERROR
     /\ token_lexeme result = ptr_add (lexer_source lxa) (lexer_position lx)
     /\ token_length result = 1
     /\ token_line result = lexer_line lx
     /\ token_column result = lexer_column lx
     /\ token_filename result = lexer_filename lxa
     /\ token_flags result = 0
     /\ lexer_position lx'' = lexer_position lx + 1
     /\ lexer_position lx < lexer_position lx''
     /\ lexer_source lx'' = lexer_source lxa
     /\ lexer_source_length lx'' = lexer_source_length lxa
     /\ lexer_rules lx'' = lexer_rules lxa
     /\ lexer_context lx'' = lexer_context lxa
     /\ lexer_flags lx'' = lexer_flags lxa
     /\ lexer_error_message lx'' = lexer_error_message lxa)
  /\ (lexer_source_length lxa <= lexer_position lx ->
      exists result : token_t,
        next_token fuel (Some lx) = Some (result, Some lxa)
        /\ token_kind result = INTERNAL_TOKEN_EOF
        /\ token_line result = lexer_line lx
        /\ token_column result = lexer_column lx
        /\ lexer_position lxa = lexer_position lx).
Proof.
  intros Hnot Hpass Hpos Hsize Hfuel.
  destruct (pass_location _ _ _ _ _ _ _ _ _ Hpass)
    as (Hp & Hl & Hc); try reflexivity.
  assert (Hscan : scanning lx token_zero (S n) (NothingMatched lxa ta))
    by (eapply scan_gives_up; eassumption).
  destruct (scan_next_token _ _ _ _ Hnot Hscan Hfuel)
    as (result & l' & Hcall & Hret).
  cbn [call_returns] in Hret. rewrite Hp in Hret.
  split; intros Hlen.
  - destruct Hret as [(Habs & _) | (_ & Herr & Hl')]; [lia |].
    destruct (advance_step lxa) as (lx'' & Hadv & Hp'' & Hs & Hsl & Hr & _ & Hcx & Hfl).
    { unfold in_buffer. rewrite Hp. lia. }
    rewrite Hadv in Hl'. subst l'.
    exists result, lx''. split; [exact Hcall |].
    destruct Herr as (Hk & Hx & Hn & Hln & Hcl & Hf & Hg).
    rewrite Hp in Hx, Hp''. rewrite Hl in Hln. rewrite Hc in Hcl.
    assert (Hmsg : lexer_error_message lx'' = lexer_error_message lxa).
    { unfold lexer_advance in Hadv.
      destruct (lexer_source_length lxa <=? lexer_position lxa);
        [injection Hadv as <-; reflexivity |].
      destruct (Ascii.eqb _ _); injection Hadv as <-; reflexivity. }
    repeat split; try assumption; lia.
  - destruct Hret as [(_ & Heof & Hl') | (Habs & _)]; [| lia].
    subst l'. exists result. split; [exact Hcall |].
    destruct Heof as (Hk & _ & _ & Hln & Hcl & _).
    rewrite Hl in Hln. rewrite Hc in Hcl. auto.
Qed.

(** ** Source references *)

Lemma kept_reference_in_buffer (lxm lx2 : lexer) (ts result : token_t)
    (o : cobject) (off : Z) :
  token_lexeme ts = ptr_add (lexer_source lxm) (lexer_position lxm) ->
  lexer_source lxm = Ptr o off ->
  0 <= lexer_position lxm ->
  token_lexeme result = token_lexeme ts ->
  lexer_source lx2 = lexer_source lxm ->
  (reference_in_buffer result lx2 = true
   <-> 0 <= token_length result
       /\ lexer_position lxm + token_length result <= lexer_source_length lx2).
Proof.
  intros Hts Hs Hp Hx Hs2. unfold reference_in_buffer.
  rewrite Hx, Hts, Hs2, Hs. cbn [ptr_add]. rewrite cobject_eqb_refl.
  cbn [andb]. rewrite !andb_true_iff, !Z.leb_le. lia.
Qed.

Lemma for_rules_matcher_left (fuel : nat) :
  forall (lx : lexer) (token : token_t) (i : nat) (result : token_t)
         (lx2 : lexer),
    scan_rules fuel false lx token
      (lexer_position lx) (lexer_line lx) (lexer_column lx) i
    = Some (ForReturn result lx2) ->
    matcher_left matcher_code action_code lx2 result.
Proof.
  induction fuel as [| fuel IH]; intros lx token i result lx2 H.
  - discriminate.
  - cbn [for_rules] in H.
    destruct (i <? List.length (lexer_rules lx))%nat eqn:Hi; [| discriminate].
    apply Nat.ltb_lt in Hi.
    destruct (matcher_code _ _ _) as [[matched lx1] token1] eqn:Hm.
    destruct matched.
    + destruct (run_action _ _ _ _) as [lxr tokenr] eqn:Ha.
      destruct (is_discarded lxr tokenr); [discriminate |].
      rewrite token_copy_same in H. injection H as <- <-.
      exists lx, i, (nth i (lexer_rules lx) null_rule),
        (set_token_start token (lexer_line lx) (lexer_column lx)
           (ptr_add (lexer_source lx) (lexer_position lx))),
        lx1, token1.
      split; [apply nth_error_nth'; exact Hi |].
      split; [reflexivity |]. split; [reflexivity |]. split; [reflexivity |].
      split; [exact Hm |].
      split; [apply action_leaves_run; exact Ha |].
      intros o off Hs Hp Hx Hs2.
      eapply kept_reference_in_buffer; try eassumption. reflexivity.
    + specialize (IH (set_location lx1 (lexer_position lx) (lexer_line lx)
                        (lexer_column lx)) token1 (S i) result lx2).
      cbn [set_location lexer_position lexer_line lexer_column] in IH.
      exact (IH H).
Qed.

Lemma while_loop_matcher_left (fuel : nat) :
  forall (lx : lexer) (token : token_t) (result : token_t) (lx2 : lexer),
    scan fuel lx token = Some (Returned result lx2) ->
    matcher_left matcher_code action_code lx2 result.
Proof.
  induction fuel as [| fuel IH]; intros lx token result lx2 H.
  - discriminate.
  - rewrite while_loop_pass in H.
    destruct (scan_rules fuel _ _ _ _ _ _ _) as [[r l | r l t] |] eqn:Hf;
      cbn [after_pass] in H; try discriminate.
    + injection H as <- <-. exact (for_rules_matcher_left _ _ _ _ _ _ Hf).
    + destruct (negb r); [discriminate |]. exact (IH _ _ _ _ H).
Qed.

(** ** A pass of the algorithm is a pass of the code *)

Lemma for_rules_pass (fuel : nat) :
  forall (lx : lexer) (t : token_t) (p l c : Z) (i : nat) (out : for_outcome),
    scan_rules fuel false lx t p l c i = Some out ->
    exists (n : nat) (o : pass_result),
      pass p l c lx t i n o
      /\ match out with
         | ForReturn r lx2 => o = FirstMatch lx2 r /\ ~ ignored lx2 r
         | ForExit true lx2 t2 => o = FirstMatch lx2 t2 /\ ignored lx2 t2
         | ForExit false lxa ta => o = NoRuleMatches lxa ta
         end.
Proof.
  induction fuel as [| fuel IH]; intros lx t p l c i out H.
  - discriminate.
  - cbn [for_rules] in H.
    destruct (i <? List.length (lexer_rules lx))%nat eqn:Hi.
    + apply Nat.ltb_lt in Hi.
      pose proof (nth_error_nth' (lexer_rules lx) null_rule Hi) as Hr.
      destruct (matcher_code _ _ _) as [[matched lx1] t1] eqn:Hm.
      destruct matched.
      * destruct (run_action _ _ _ _) as [lx2 t2] eqn:Ha.
        apply action_leaves_run in Ha.
        assert (Hpass : pass p l c lx t i 1 (FirstMatch lx2 t2)).
        { eapply pass_rule_matches;
            [exact Hr | apply stamped_set | exact Hm | exact Ha]. }
        destruct (is_discarded lx2 t2) eqn:Hd.
        -- injection H as <-. exists 1%nat, (FirstMatch lx2 t2).
           split; [exact Hpass |]. split; [reflexivity |].
           apply ignored_discarded. exact Hd.
        -- rewrite token_copy_same in H. injection H as <-.
           exists 1%nat, (FirstMatch lx2 t2).
           split; [exact Hpass |]. split; [reflexivity |].
           apply not_ignored_kept. exact Hd.
      * destruct (IH _ _ _ _ _ _ _ H) as (n & o & Hrest & Hout).
        exists (S n), o. split; [| exact Hout].
        eapply pass_rule_fails;
          [exact Hr | apply stamped_set | exact Hm | apply relocated_set
          | exact Hrest].
    + apply Nat.ltb_ge in Hi. injection H as <-.
      exists 1%nat, (NoRuleMatches lx t). split; [| reflexivity].
      apply pass_no_more. exact Hi.
Qed.

Lemma while_loop_scan (fuel : nat) :
  forall (lx : lexer) (t : token_t) (out : while_outcome),
    scan fuel lx t = Some out ->
    exists n : nat,
      scanning lx t n
        (match out with
         | Returned r lx2 => TokenMatched r lx2
         | NoMatch lxa ta => NothingMatched lxa ta
         end).
Proof.
  induction fuel as [| fuel IH]; intros lx t out H.
  - discriminate.
  - rewrite while_loop_pass in H.
    destruct (scan_rules fuel _ _ _ _ _ _ _) as [[r lx2 | reset lx2 t2] |]
      eqn:Hf; cbn [after_pass] in H; [| | discriminate].
    + injection H as <-.
      destruct (for_rules_pass _ _ _ _ _ _ _ _ Hf) as (n & o & Hpass & -> & Hk).
      exists (S n). eapply scan_returns; eassumption.
    + destruct (for_rules_pass _ _ _ _ _ _ _ _ Hf) as (n & o & Hpass & Hout).
      destruct reset; cbn [negb] in H.
      * destruct Hout as [-> Hign].
        destruct (IH _ _ _ H) as (m & Hrest).
        exists (S (Nat.max n m)). eapply scan_restarts; eassumption.
      * injection H as <-. subst o.
        exists (S n). eapply scan_gives_up; eassumption.
Qed.

Lemma eof_literal_outside (lxe : lexer) (result : token_t) (id : N)
    (chars : string) (off : Z) :
  token_lexeme result = EOF_LITERAL ->
  lexer_source lxe = Ptr (CallerBuffer id chars) off ->
  reference_in_buffer result lxe = false.
Proof.
  intros Hx Hs. unfold reference_in_buffer. rewrite Hx, Hs. reflexivity.
Qed.

(** C6, as the code has it: a token returned by a call of
    [lexer_next_token] is of one of three sorts.  An ERROR token made by
    the engine, when the passes of the call came to no rule before the
    end: its reference, the one character at the cursor, lies within
    the buffer the engine is bound to.  An EOF token made by the engine
    (null engine, end of input on entry or after the passes): its lexeme
    is the string literal of the library, with length 0, which lies in
    no buffer of the caller.  Or the token of the first match that is
    not ignored: it is the working token as the matcher and the action
    of the rule left it, lexeme and length included; the engine had
    pointed its lexeme at the cursor of the engine the matcher was
    called on and checks nothing afterwards, so with the lexeme and the
    buffer left alone the reference lies within the buffer exactly when
    the length that was left is not negative and not more than what
    remains of the buffer. *)
Theorem token_reference_sorts (fuel : nat) (l l' : option lexer)
    (result : token_t) :
  next_token fuel l = Some (result, l') ->
  error_buffer_reference matcher_code action_code l result l'
  \/ eof_literal_reference matcher_code action_code l result l'
  \/ matcher_left_reference matcher_code action_code l result l'.
Proof.
  intros H. destruct l as [lx |]; cbn [lexer_next_token] in H.
  - destruct (lexer_is_eof (Some lx)) eqn:Heof.
    + injection H as <- <-. right. left.
      cbn [lexer_is_eof] in Heof. apply Z.leb_le in Heof.
      split; [reflexivity |]. split; [reflexivity |]. split; [reflexivity |].
      split.
      * right. left. exists lx. split; [reflexivity |].
        split; [exact Heof |]. split; [repeat split | reflexivity].
      * intros lxe id chars off _ Hs.
        eapply eof_literal_outside; [reflexivity | exact Hs].
    + cbn [lexer_is_eof] in Heof. apply Z.leb_gt in Heof.
      destruct (scan fuel lx token_zero) as [[r lx2 | lxp t] |] eqn:Hs;
        cbn [conclude] in H; [| | discriminate].
      * injection H as <- <-. right. right.
        destruct (while_loop_scan _ _ _ _ Hs) as (n & Hscan).
        exists lx, n, lx2. split; [reflexivity |]. split; [exact Heof |].
        split; [exact Hscan |]. split; [reflexivity |].
        exact (while_loop_matcher_left _ _ _ _ _ Hs).
      * destruct (while_loop_scan _ _ _ _ Hs) as (n & Hscan).
        unfold no_rule_matched in H.
        destruct (lexer_is_eof (Some lxp)) eqn:Heof';
          cbn [lexer_is_eof] in Heof'.
        -- apply Z.leb_le in Heof'. injection H as <- <-. right. left.
           split; [reflexivity |]. split; [reflexivity |].
           split; [reflexivity |]. split.
           ++ right. right. exists lx, n, lxp, t.
              split; [reflexivity |]. split; [exact Heof |].
              split; [exact Hscan |]. split; [exact Heof' |].
              split; [repeat split | reflexivity].
           ++ intros lxe id chars off _ Hsrc.
              eapply eof_literal_outside; [reflexivity | exact Hsrc].
        -- apply Z.leb_gt in Heof'. injection H as <- <-. left.
           exists lx, n, lxp, t.
           split; [reflexivity |]. split; [exact Heof |].
           split; [exact Hscan |]. split; [exact Heof' |].
           split; [repeat split |]. split; [reflexivity |].
           intros o off Hsrc Hpos.
           eapply error_token_in_buffer; eassumption.
  - injection H as <- <-. right. left.
    split; [reflexivity |]. split; [reflexivity |]. split; [reflexivity |].
    split; [left; split; reflexivity |].
    intros lxe id chars off Habs. discriminate.
Qed.

(** ** KeepIgnorable *)

Lemma pass_keeps_flags (p l c : Z) (lx : lexer) (t : token_t) (i n : nat)
    (lx2 : lexer) (t2 : token_t) :
  keeps_engine_flags matcher_code action_code ->
  pass p l c lx t i n (FirstMatch lx2 t2) ->
  lexer_flags lx2 = lexer_flags lx.
Proof.
  intros [Hkm Hka] H. remember (FirstMatch lx2 t2) as o eqn:Ho.
  induction H as [lx t i Hend
                 | lx t i r ts lx1 t1 lxr n o Hr Hs Hm Hl Hrest IH
                 | lx t i r ts lx1 t1 lx2' t2' Hr Hs Hm Ha].
  - discriminate.
  - rewrite (IH Ho).
    destruct Hl as (_ & _ & _ & _ & _ & _ & _ & _ & _ & Hf). rewrite Hf.
    pose proof (Hkm (matcher r) lx ts) as Hk. rewrite Hm in Hk. exact Hk.
  - injection Ho as <- <-.
    pose proof (Hkm (matcher r) lx ts) as Hk. rewrite Hm in Hk.
    cbn [fst snd] in Hk. rewrite <- Hk.
    destruct Ha as [(_ & -> & _) | (_ & Ha)]; [reflexivity |].
    pose proof (Hka (action r) lx1 t1) as Hk'. rewrite Ha in Hk'. exact Hk'.
Qed.

(** X17: with KeepIgnorable set on an engine that is not at the end of
    the input, and matchers and actions that leave the flags of the
    engine alone, the token of the first rule whose matcher succeeds is
    the token the call returns, whether or not it carries the Ignore
    flag, with the engine as matcher and action left it, after the one
    pass that comes to that match. *)
Theorem keep_ignorable_single_pass (lx : lexer) (n fuel : nat) (lx2 : lexer)
    (t2 : token_t) :
  keeps_engine_flags matcher_code action_code ->
  Z.land (lexer_flags lx) LEXER_FLAG_KEEP_IGNORABLE <> 0 ->
  lexer_position lx < lexer_source_length lx ->
  pass (lexer_position lx) (lexer_line lx) (lexer_column lx)
    lx token_zero O n (FirstMatch lx2 t2) ->
  (S n <= fuel)%nat ->
  next_token fuel (Some lx) = Some (t2, Some lx2)
  /\ scan_rules n false lx token_zero
       (lexer_position lx) (lexer_line lx) (lexer_column lx) O
     = Some (ForReturn t2 lx2).
Proof.
  intros Hkeep Hflag Hnot Hpass Hfuel.
  assert (Hkept : ~ ignored lx2 t2).
  { intros [_ Hk]. rewrite (pass_keeps_flags _ _ _ _ _ _ _ _ _ Hkeep Hpass) in Hk.
    contradiction. }
  split.
  - assert (Hscan : scanning lx token_zero (S n) (TokenMatched t2 lx2))
      by (eapply scan_returns; eassumption).
    destruct (scan_next_token _ _ _ _ Hnot Hscan Hfuel)
      as (result & l' & Hcall & -> & ->).
    exact Hcall.
  - rewrite (pass_for_rules _ _ _ _ _ _ _ _ Hpass). cbv beta iota.
    rewrite (proj1 (not_ignored_kept _ _) Hkept). reflexivity.
Qed.

End Refinement.

(** ** The algorithm on concrete inputs *)

Ltac sample_fails :=
  eapply pass_rule_fails;
  [ vm_compute; reflexivity
  | apply stamped_set
  | vm_compute; reflexivity
  | apply relocated_set
  | ].

Ltac sample_matches :=
  eapply pass_rule_matches;
  [ vm_compute; reflexivity
  | apply stamped_set
  | vm_compute; reflexivity
  | first [ left; split; [reflexivity | split; reflexivity]
          | right; split; [discriminate | vm_compute; reflexivity] ] ].

Ltac sample_no_more := eapply pass_no_more; vm_compute; lia.

Ltac sample_not_ignored :=
  unfold ignored; vm_compute; intros [H _]; apply H; reflexivity.

(** At the end of [a]: the EOF token of line 1, column 2, three times. *)
Lemma next_token_eof_idempotent_witness :
  exists result : token_t,
    Sample.next_token 0 (Some Sample.at_end) = Some (result, Some Sample.at_end)
    /\ token_kind result = 0
    /\ token_line result = 1
    /\ token_column result = 2
    /\ token_filename result = Sample.file_name
    /\ next_tokens Sample.matcher_code Sample.action_code 0 3
         (Some Sample.at_end)
       = Some ([result; result; result], Some Sample.at_end).
Proof.
  destruct (next_token_eof_idempotent Sample.matcher_code Sample.action_code
              Sample.at_end 0 3)
    as (result & Hcall & Hk & Hl & Hc & Hf & _ & _ & _ & Hrep).
  - vm_compute. discriminate.
  - exists result. repeat split; assumption.
Defined.

(** The matcher for strings consumes the three characters of the open
    string and fails; the rule for identifiers is then tried at
    position 0 and fails, and the rule for any character matches the
    quote at position 0, line 1, column 1. *)
Lemma failed_matcher_restores_origin_witness :
  exists (lx1 : Sample.lexer) (t1 : token_t) (lx2 : Sample.lexer)
         (t2 : token_t),
    Sample.matcher_code Sample.MATCH_STRING Sample.open_string
      (set_token_start token_zero 1 1
         (Sample.buffer (String Sample.quote "ab")))
    = (false, lx1, t1)
    /\ lexer_position lx1 = 3
    /\ for_rules Sample.matcher_code Sample.action_code 4 false
         Sample.open_string token_zero 0 1 1 0
       = Some (ForReturn t2 lx2)
    /\ token_kind t2 = Sample.TOKEN_CHAR
    /\ token_column t2 = 1
    /\ token_lexeme t2 = Sample.buffer (String Sample.quote "ab")
    /\ lexer_position lx2 = 1.
Proof.
  eexists _, _, _, _.
  split; [vm_compute; reflexivity |].
  split; [reflexivity |].
  split.
  { refine (proj1 (failed_matcher_restores_origin Sample.matcher_code
                     Sample.action_code 0 1 1 Sample.open_string token_zero
                     0 _ _ _ _ _ _ 4 (FirstMatch _ _) _ _ _ _ _ _) _).
    - vm_compute. reflexivity.
    - apply stamped_set.
    - vm_compute. reflexivity.
    - apply relocated_set.
    - sample_fails. sample_matches.
    - lia.
    - sample_not_ignored. }
  repeat split.
Defined.

(** On a blank and a letter, white space being ignorable: the pass from
    position 0 ends without a token, and the call returns the token
    for the letter, at column 2. *)
Lemma ignorable_token_restarts_scan_witness :
  exists (lx2 : Sample.lexer) (t2 : token_t) (result : token_t)
         (lx' : Sample.lexer),
    for_rules Sample.matcher_code Sample.action_code 1 false
      Sample.blank_x token_zero 0 1 1 0
    = Some (ForExit true lx2 t2)
    /\ token_kind t2 = Sample.TOKEN_SPACE
    /\ lexer_position lx2 = 1
    /\ Sample.next_token 4 (Some Sample.blank_x) = Some (result, Some lx')
    /\ token_kind result = Sample.TOKEN_CHAR
    /\ token_column result = 2
    /\ token_lexeme result = Ptr (CallerBuffer 1 " x") 1
    /\ lexer_position lx' = 2.
Proof.
  edestruct (ignorable_token_restarts_scan Sample.matcher_code
               Sample.action_code Sample.blank_x token_zero)
    as (Hloop & _ & Hcall).
  - sample_matches.
  - vm_compute. discriminate.
  - vm_compute. reflexivity.
  - match type of Hcall with
    | forall m fuel o, scan_spec _ _ ?lx2 ?t2 m o -> _ =>
        eassert (Hscan : scan_spec Sample.matcher_code Sample.action_code
                           lx2 t2 _ (TokenMatched _ _))
    end.
    { eapply scan_returns; [sample_fails; sample_matches | sample_not_ignored]. }
    destruct (Hcall _ 4%nat _ Hscan)
      as (result & l' & Hnext & Hret & Hl').
    + vm_compute. reflexivity.
    + reflexivity.
    + vm_compute. lia.
    + subst result l'.
      eexists _, _, _, _.
      split; [apply Hloop; lia |].
      split; [reflexivity |]. split; [reflexivity |].
      split; [exact Hnext |]. repeat split.
Defined.

(** On [ab], with the rule for any character before the rule for
    identifiers, the call returns the one-character token although the
    second rule would match two characters; on a blank and a letter the
    ignorable first match is not returned. *)
Lemma first_matching_rule_wins_witness :
  (exists (t2 : token_t) (lx2 : Sample.lexer),
      Sample.next_token 2 (Some Sample.ab_any_first) = Some (t2, Some lx2)
      /\ token_kind t2 = Sample.TOKEN_CHAR
      /\ token_length t2 = 1
      /\ lexer_position lx2 = 1
      /\ token_length
           (snd (Sample.match_ident Sample.ab_any_first
                   (set_token_start token_zero 1 1 (Sample.buffer "ab"))))
         = 2)
  /\ (exists (result : token_t) (lx' : Sample.lexer),
         Sample.next_token 4 (Some Sample.blank_x) = Some (result, Some lx')
         /\ token_kind result = Sample.TOKEN_CHAR
         /\ token_column result = 2).
Proof.
  split.
  - edestruct (first_matching_rule_wins Sample.matcher_code Sample.action_code
                 Sample.ab_any_first token_zero)
      as [Hkept _].
    + sample_matches.
    + destruct Hkept as [_ Hcall]; [sample_not_ignored |].
      eexists _, _.
      split; [apply (Hcall 2%nat); [vm_compute; reflexivity | reflexivity | lia] |].
      repeat split.
  - edestruct (first_matching_rule_wins Sample.matcher_code Sample.action_code
                 Sample.blank_x token_zero)
      as [_ Hign].
    + sample_matches.
    + destruct Hign as [_ Hcall].
      { split; [vm_compute; discriminate | vm_compute; reflexivity]. }
      match type of Hcall with
      | forall m fuel o, scan_spec _ _ ?lx2 ?t2 m o -> _ =>
          eassert (Hscan : scan_spec Sample.matcher_code Sample.action_code
                             lx2 t2 _ (TokenMatched _ _))
      end.
      { eapply scan_returns;
          [sample_fails; sample_matches | sample_not_ignored]. }
      destruct (Hcall _ 4%nat _ Hscan)
        as (result & l' & Hnext & Hret & Hl').
      * vm_compute. reflexivity.
      * reflexivity.
      * vm_compute. lia.
      * subst result l'. eexists _, _.
        split; [exact Hnext |]. repeat split.
Defined.

(** On [ab] with one rule whose matcher moves the cursor, records a
    complaint and fails: the call returns the ERROR token for the first
    character, line 1, column 1, and leaves the engine at position 1
    with the complaint recorded. *)
Lemma unmatched_input_yields_error_witness :
  exists (result : token_t) (lx'' : Rogue.lexer),
    lexer_position
      (snd (fst (Rogue.match_complain (Rogue.with_rule Rogue.MATCH_COMPLAIN)
                   token_zero)))
    = 1
    /\ Rogue.next_token 3 (Some (Rogue.with_rule Rogue.MATCH_COMPLAIN))
       = Some (result, Some lx'')
    /\ token_kind result = 1
    /\ token_lexeme result = Sample.buffer "ab"
    /\ token_length result = 1
    /\ token_line result = 1
    /\ token_column result = 1
    /\ lexer_position lx'' = 1
    /\ lexer_error_message lx'' = Rogue.COMPLAINT.
Proof.
  edestruct (unmatched_input_yields_error Rogue.matcher_code
               Rogue.action_code (Rogue.with_rule Rogue.MATCH_COMPLAIN))
    as [Herr _].
  - vm_compute. reflexivity.
  - sample_fails. sample_no_more.
  - vm_compute. discriminate.
  - vm_compute. reflexivity.
  - instantiate (1 := 3%nat). lia.
  - destruct Herr
      as (result & lx'' & Hcall & Hk & Hx & Hn & Hl & Hc & _ & _ & Hp & _
          & _ & _ & _ & _ & _ & Hmsg).
    + vm_compute. reflexivity.
    + exists result, lx''. split; [reflexivity |].
      repeat split; assumption.
Defined.

(** On [a#b] with the cursor on [#] the token is an ERROR token whose
    reference is within the buffer; on [ab cd] with the cursor on [c]
    the token is the identifier as its matcher left it, pointing at
    [c], column 4, its two characters within the buffer. *)
Lemma token_reference_sorts_witness :
  (exists (result : token_t) (l' : option Sample.lexer),
      Sample.next_token 3 (Some Sample.at_hash) = Some (result, l')
      /\ token_kind result = INTERNAL_TOKEN_ERROR
      /\ token_lexeme result = Ptr (CallerBuffer 1 "a#b") 1
      /\ reference_in_buffer result Sample.at_hash = true
      /\ (error_buffer_reference Sample.matcher_code Sample.action_code
            (Some Sample.at_hash) result l'
          \/ eof_literal_reference Sample.matcher_code Sample.action_code
               (Some Sample.at_hash) result l'
          \/ matcher_left_reference Sample.matcher_code Sample.action_code
               (Some Sample.at_hash) result l'))
  /\ (exists (result : token_t) (l' : option Sample.lexer),
         Sample.next_token 3 (Some Sample.second_word) = Some (result, l')
         /\ token_kind result = Sample.TOKEN_IDENT
         /\ token_lexeme result = Ptr (CallerBuffer 1 "ab cd") 3
         /\ token_column result = 4
         /\ token_length result = 2
         /\ reference_in_buffer result Sample.second_word = true
         /\ (error_buffer_reference Sample.matcher_code Sample.action_code
               (Some Sample.second_word) result l'
             \/ eof_literal_reference Sample.matcher_code Sample.action_code
                  (Some Sample.second_word) result l'
             \/ matcher_left_reference Sample.matcher_code Sample.action_code
                  (Some Sample.second_word) result l')).
Proof.
  split.
  - exists (fst (Sample.unwrap_result
                   (Sample.next_token 3 (Some Sample.at_hash)))),
      (snd (Sample.unwrap_result (Sample.next_token 3 (Some Sample.at_hash)))).
    split; [vm_compute; reflexivity |].
    split; [vm_compute; reflexivity |].
    split; [vm_compute; reflexivity |].
    split; [vm_compute; reflexivity |].
    apply (token_reference_sorts Sample.matcher_code Sample.action_code 3
             (Some Sample.at_hash)).
    vm_compute. reflexivity.
  - exists (fst (Sample.unwrap_result
                   (Sample.next_token 3 (Some Sample.second_word)))),
      (snd (Sample.unwrap_result
              (Sample.next_token 3 (Some Sample.second_word)))).
    split; [vm_compute; reflexivity |].
    split; [vm_compute; reflexivity |].
    split; [vm_compute; reflexivity |].
    split; [vm_compute; reflexivity |].
    split; [vm_compute; reflexivity |].
    split; [vm_compute; reflexivity |].
    apply (token_reference_sorts Sample.matcher_code Sample.action_code 3
             (Some Sample.second_word)).
    vm_compute. reflexivity.
Defined.

(** With KeepIgnorable set, the white space before the letter is
    returned, Ignore flag and all. *)
Lemma keep_ignorable_single_pass_witness :
  exists (t2 : token_t) (lx2 : Sample.lexer),
    Sample.next_token 2 (Some Sample.blanks_x_kept) = Some (t2, Some lx2)
    /\ token_kind t2 = Sample.TOKEN_SPACE
    /\ token_length t2 = 2
    /\ Z.land (token_flags t2) TOKEN_FLAG_IGNORE = 1
    /\ lexer_position lx2 = 2.
Proof.
  edestruct (keep_ignorable_single_pass Sample.matcher_code Sample.action_code
               Sample.blanks_x_kept) as [Hcall _].
  - exact sample_keeps_engine_flags.
  - vm_compute. discriminate.
  - vm_compute. reflexivity.
  - sample_matches.
  - instantiate (1 := 2%nat). lia.
  - eexists _, _. split; [exact Hcall |]. repeat split.
Defined.

(** ** Further inputs on which a sentence of the specification fails *)

(** A matcher that sets the length of the buffer to 0 and fails: the
    engine was not at EOF and no rule matched, yet the call returns an
    EOF token, not an ERROR token, and the position has not moved. *)
Lemma shrinking_matcher_yields_eof :
  lexer_is_eof (Some (Rogue.with_rule Rogue.MATCH_SHRINK)) = false
  /\ fst (fst (Rogue.matcher_code Rogue.MATCH_SHRINK
                 (Rogue.with_rule Rogue.MATCH_SHRINK)
                 (set_token_start token_zero 1 1 (Sample.buffer "ab"))))
     = false
  /\ exists (result : token_t) (lx' : Rogue.lexer),
      Rogue.next_token 3 (Some (Rogue.with_rule Rogue.MATCH_SHRINK))
      = Some (result, Some lx')
      /\ token_kind result = INTERNAL_TOKEN_EOF
      /\ token_kind result <> INTERNAL_TOKEN_ERROR
      /\ lexer_position lx'
         = lexer_position (Rogue.with_rule Rogue.MATCH_SHRINK).
Proof.
  split; [reflexivity |]. split; [reflexivity |].
  eexists _, _. split; [vm_compute; reflexivity |].
  repeat split. vm_compute. discriminate.
Qed.

(** At the end of the input the token returned is the EOF token, whose
    lexeme is the string literal of the library: its reference is not
    within the source buffer.  And a matcher that sets the length of
    its token to 100 on a buffer of two characters has its token
    returned as it is: its reference ends outside the buffer. *)
Lemma token_references_outside_buffer :
  (exists result : token_t,
      Sample.next_token 0 (Some Sample.at_end)
      = Some (result, Some Sample.at_end)
      /\ token_kind result = INTERNAL_TOKEN_EOF
      /\ reference_in_buffer result Sample.at_end = false)
  /\ (exists (result : token_t) (lx' : Rogue.lexer),
         Rogue.next_token 2 (Some (Rogue.with_rule Rogue.MATCH_OVERLONG))
         = Some (result, Some lx')
         /\ token_length result = 100
         /\ lexer_source_length lx' = 2
         /\ reference_in_buffer result lx' = false).
Proof.
  split.
  - eexists. split; [vm_compute; reflexivity |]. split; reflexivity.
  - eexists _, _. split; [vm_compute; reflexivity |]. repeat split.
Qed.
